(** * Shopping-cart cache: the atomic cart scripts, the cart service and the
      retrying cache client

    A shallow embedding of [app/atomic_scripts.py] (the three Lua scripts),
    [app/cart_service.py] (the service wrapped around them),
    [app/redis_client.py] (the retry loop) and [app/checkout_service.py] (the
    checkout), with the statements of the specification proved, or refuted,
    against it, and further properties of the code after them.

    Conventions of the model.
    - The cache is a finite map from keys to hashes; a hash is a finite map
      from fields to stored payloads together with an optional expiry.  There
      is no clock: [EXPIRE] records the duration it was given and nothing
      expires.  The cache answers every command of the service; failing
      transport is the matter of the retry loop, modelled on its own.
    - A stored payload is either the text of a JSON document, kept as the
      document itself, or text that is no JSON at all.  [cjson.encode] and
      [json.loads]/[cjson.decode] are therefore inverse to each other.
    - Lua numbers and Python integers are integers of [Z]; JSON numbers with a
      fraction are outside the model (the scripts write quantities as integers
      and prices as strings).
    - A script hands its result table to the caller as a dictionary.
    - Delays are rationals of [Q]; the random draws of the jitter are an
      input of the retry loop. *)

From Stdlib Require Import ZArith QArith Qminmax Lqa String Ascii List Lia.
From stdpp Require Import base option gmap strings list fin_maps.

Set Warnings "-register-all".

Local Open Scope string_scope.
Local Open Scope Z_scope.

(** ** JSON documents and stored payloads *)

Inductive json : Type :=
  | JNull
  | JBool (b : bool)
  | JInt (n : Z)
  | JStr (s : string)
  | JArr (elems : list json)
  | JObj (members : list (string * json)).

(** What a hash field holds: the text of a JSON document, or other text. *)
Inductive payload : Type :=
  | Doc (j : json)
  | NotJson (raw : string).

(** [cjson.decode] / [json.loads]: [None] is the decoding error. *)
Definition decode (p : payload) : option json :=
  match p with
  | Doc j => Some j
  | NotJson _ => None
  end.

(** [cjson.encode] *)
Definition encode (j : json) : payload := Doc j.

(** Member lookup in an object, by name. *)
Fixpoint assoc (k : string) (members : list (string * json)) : option json :=
  match members with
  | [] => None
  | (k', v) :: rest => if String.eqb k k' then Some v else assoc k rest
  end.

(** ** Decimal numerals *)

Definition is_digit (c : ascii) : bool :=
  let n := nat_of_ascii c in (48 <=? n)%nat && (n <=? 57)%nat.

Definition digit_val (c : ascii) : Z := Z.of_nat (nat_of_ascii c) - 48.

(** Reads a run of digits: the number read so far, how many digits were
    read, and the rest of the text. *)
Fixpoint read_digits (acc : Z) (count : Z) (s : string) : Z * Z * string :=
  match s with
  | String c rest =>
      if is_digit c then read_digits (10 * acc + digit_val c) (count + 1) rest
      else (acc, count, s)
  | EmptyString => (acc, count, s)
  end.

(** An optional sign: [true] for a minus. *)
Definition read_sign (s : string) : bool * string :=
  match s with
  | String "-" rest => (true, rest)
  | String "+" rest => (false, rest)
  | _ => (false, s)
  end.

Definition apply_sign (neg : bool) (n : Z) : Z := if neg then - n else n.

(** A plain integer literal: an optional sign and at least one digit. *)
Definition int_of_string (s : string) : option Z :=
  let '(neg, s1) := read_sign s in
  let '(n, count, rest) := read_digits 0 0 s1 in
  if (0 <? count) && String.eqb rest "" then Some (apply_sign neg n) else None.

(** ** Decimal numbers ([decimal.Decimal])

    A finite decimal is a signed coefficient and an exponent; it stands for
    [coef * 10 ^ expo].  Arithmetic follows the default context of the
    [decimal] module: a result is rounded half-even to [prec] significant
    digits.  The exponent limits of the context and the sign of zero are
    outside the model. *)

Record Decimal : Type := mk_Decimal { coef : Z; expo : Z }.

(** The precision of the default context. *)
Definition prec : Z := 28.

Fixpoint count_digits (fuel : nat) (n : Z) : Z :=
  match fuel with
  | O => 1
  | S fuel' => if n <? 10 then 1 else 1 + count_digits fuel' (n / 10)
  end.

(** The number of decimal digits of [n >= 0]. *)
Definition ndigits (n : Z) : Z := count_digits (Z.to_nat (Z.log2 n)) n.

(** [Decimal._fix]: a coefficient of more than [prec] digits loses its last
    digits, rounding half-even. *)
Definition fix_context (d : Decimal) : Decimal :=
  let c := Z.abs (coef d) in
  if c <? 10 ^ prec then d
  else
    let drop := ndigits c - prec in
    let q := c / 10 ^ drop in
    let r := c mod 10 ^ drop in
    let half := 5 * 10 ^ (drop - 1) in
    let q' := if (half <? r) || ((r =? half) && Z.odd q) then q + 1 else q in
    if q' =? 10 ^ prec
    then mk_Decimal (Z.sgn (coef d) * 10 ^ (prec - 1)) (expo d + drop + 1)
    else mk_Decimal (Z.sgn (coef d) * q') (expo d + drop).

(** [a + b] *)
Definition Decimal_add (a b : Decimal) : Decimal :=
  let e := Z.min (expo a) (expo b) in
  fix_context
    (mk_Decimal (coef a * 10 ^ (expo a - e) + coef b * 10 ^ (expo b - e)) e).

(** [a * n] for an integer [n] *)
Definition Decimal_mul_int (a : Decimal) (n : Z) : Decimal :=
  fix_context (mk_Decimal (coef a * n) (expo a)).

(** [Decimal(s)] on a numeric string: an optional sign, digits with an
    optional point, an optional exponent.  [None] is [InvalidOperation].
    The other spellings the constructor accepts (surrounding blanks,
    underscores, the non-finite values) are outside the model. *)
Definition Decimal_of_string (s : string) : option Decimal :=
  let '(neg, s1) := read_sign s in
  let '(ip, ni, s2) := read_digits 0 0 s1 in
  let '(c, nf, s3) := match s2 with
                      | String "." rest => read_digits ip 0 rest
                      | _ => (ip, 0, s2)
                      end in
  if ni + nf =? 0 then None
  else
    match s3 with
    | EmptyString => Some (mk_Decimal (apply_sign neg c) (- nf))
    | String ch rest =>
        if Ascii.eqb ch "e" || Ascii.eqb ch "E" then
          match int_of_string rest with
          | Some e => Some (mk_Decimal (apply_sign neg c) (e - nf))
          | None => None
          end
        else None
    end.

(** ** Lua values as the scripts use them *)

(** A Lua value read out of a decoded document: [None] is [nil]. *)
Definition lua := option json.

(** [v[k]]: indexing.  Tables (objects and arrays) answer by member, a
    string answers [nil] for the names used here, and indexing a number, a
    boolean or [cjson.null] is a runtime error (outer [None]). *)
Definition lua_index (v : json) (k : string) : option lua :=
  match v with
  | JObj members => Some (assoc k members)
  | JArr _ => Some None
  | JStr _ => Some None
  | JNull | JBool _ | JInt _ => None
  end.

(** Truthiness: only [nil] and [false] are false. *)
Definition lua_truthy (v : lua) : bool :=
  match v with
  | None => false
  | Some (JBool false) => false
  | Some _ => true
  end.

(** [tonumber(v)]: numbers as they are, strings when they spell a plain
    integer (other numeral spellings of Lua are outside the model), [nil]
    otherwise. *)
Definition tonumber (v : lua) : option Z :=
  match v with
  | Some (JInt n) => Some n
  | Some (JStr s) => int_of_string s
  | _ => None
  end.

(** [tonumber(v) or 0] *)
Definition tonumber_or_0 (v : lua) : Z := default 0 (tonumber v).

(** [v or ''] *)
Definition or_empty (v : lua) : json :=
  if lua_truthy v then default (JStr "") v else JStr "".

(** The table constructor [{quantity = q, price_snapshot = p, variant = v}]
    followed by [cjson.encode]: a member whose value is [nil] is absent. *)
Definition item_table (q : Z) (price : lua) (variant : json) : json :=
  JObj (("quantity", JInt q)
        :: (match price with
            | Some p => [("price_snapshot", p)]
            | None => []
            end
            ++ [("variant", variant)])%list).

(** ** The cache *)

Record rhash : Type := mk_rhash {
  fields : gmap string payload;
  ttl : option Z
}.

Abbreviation store := (gmap string rhash).

Definition hash_fields (st : store) (key : string) : gmap string payload :=
  match st !! key with
  | Some h => fields h
  | None => ∅
  end.

(** [EXISTS key] *)
Definition EXISTS (st : store) (key : string) : bool :=
  bool_decide (is_Some (st !! key)).

(** [HLEN key] *)
Definition HLEN (st : store) (key : string) : Z :=
  Z.of_nat (size (hash_fields st key)).

(** [HGET key field] *)
Definition HGET (st : store) (key field : string) : option payload :=
  hash_fields st key !! field.

(** [HGETALL key]: the fields with their values, in the hash's own order. *)
Definition HGETALL (st : store) (key : string) : list (string * payload) :=
  map_to_list (hash_fields st key).

(** [HSET key field value]: creates the hash when the key is absent and
    keeps the expiry of an existing one. *)
Definition HSET (st : store) (key field : string) (v : payload) : store :=
  match st !! key with
  | Some h => <[key := mk_rhash (<[field := v]> (fields h)) (ttl h)]> st
  | None => <[key := mk_rhash {[field := v]} None]> st
  end.

(** [HDEL key field]: the number of fields removed and the new cache.  The
    field is taken out and the hash stays under its key even when it is
    left without fields: the code deletes the key itself whenever the count
    it reads next is 0, so a server that drops an emptied hash on its own
    leaves the same cache behind. *)
Definition HDEL (st : store) (key field : string) : Z * store :=
  match st !! key with
  | Some h =>
      match fields h !! field with
      | Some _ => (1, <[key := mk_rhash (delete field (fields h)) (ttl h)]> st)
      | None => (0, st)
      end
  | None => (0, st)
  end.

(** [DEL key]: the number of keys removed and the new cache. *)
Definition DEL (st : store) (key : string) : Z * store :=
  match st !! key with
  | Some _ => (1, delete key st)
  | None => (0, st)
  end.

(** [EXPIRE key seconds] *)
Definition EXPIRE (st : store) (key : string) (seconds : Z) : store :=
  match st !! key with
  | Some h => <[key := mk_rhash (fields h) (Some seconds)]> st
  | None => st
  end.

(** [TTL key]: the expiry recorded for the key, if any. *)
Definition TTL (st : store) (key : string) : option Z :=
  h ← st !! key; ttl h.

(** ** Programs over the cache

    A program runs against the cache and ends with a value or with an error;
    the cache it leaves behind is kept in both cases, since nothing is rolled
    back when a script stops half way. *)

Inductive outcome (E A : Type) : Type :=
  | Done (a : A)
  | Failed (e : E).
Arguments Done {E A} a.
Arguments Failed {E A} e.

Definition prog (E A : Type) : Type := store → store * outcome E A.

Definition ret {E A} (a : A) : prog E A := λ st, (st, Done a).

Definition raise {E A} (e : E) : prog E A := λ st, (st, Failed e).

Definition bind {E A B} (m : prog E A) (k : A → prog E B) : prog E B :=
  λ st, match m st with
        | (st', Done a) => k a st'
        | (st', Failed e) => (st', Failed e)
        end.

Notation "x <- m ;; k" := (bind m (λ x, k))
  (at level 100, m at next level, right associativity).
Notation "m ;;; k" := (bind m (λ _, k))
  (at level 100, right associativity).

(** A command that only reads the cache. *)
Definition query {E A} (f : store → A) : prog E A := λ st, (st, Done (f st)).

(** A command that changes the cache and answers with a value. *)
Definition command {E A} (f : store → A * store) : prog E A :=
  λ st, let '(a, st') := f st in (st', Done a).

(** A command that changes the cache and whose answer is not used. *)
Definition update {E} (f : store → store) : prog E unit :=
  λ st, (f st, Done tt).

(** Reading an optional value that must be there. *)
Definition need {E A} (e : E) (o : option A) : prog E A :=
  match o with
  | Some a => ret a
  | None => raise e
  end.

(** ** The scripts ([app/atomic_scripts.py]) *)

(** Runtime errors of a script. *)
Inductive lua_error : Type :=
  | DecodeError   (* cjson.decode on text that is no JSON *)
  | IndexError.   (* indexing a value that is neither table nor string *)

Abbreviation script := (prog lua_error).

(** A result table: named members, as the scripts build them. *)
Abbreviation table := (list (string * json)).

Definition cjson_decode (p : payload) : script json := need DecodeError (decode p).

Definition index (v : json) (k : string) : script lua := need IndexError (lua_index v k).

(** [ADD_ITEM_SCRIPT] with [KEYS[1] = cart_key] and
    [ARGV = product_id, quantity, price_snapshot, variant, max_items,
    max_quantity, ttl]. *)
Definition ADD_ITEM_SCRIPT (cart_key product_id : string) (quantity : Z)
    (price_snapshot variant : string) (max_items max_quantity ttl : Z) : script table :=
  item_count <- query (λ st, HLEN st cart_key) ;;
  existing_item <- query (λ st, HGET st cart_key product_id) ;;
  existing_qty <- match existing_item with
                  | Some raw =>
                      existing_data <- cjson_decode raw ;;
                      q <- index existing_data "quantity" ;;
                      ret (tonumber_or_0 q)
                  | None => ret 0
                  end ;;
  let new_qty := existing_qty + quantity in
  if max_quantity <? new_qty then
    ret [("err", JStr "MAX_QUANTITY_EXCEEDED"); ("max", JInt max_quantity);
         ("requested", JInt new_qty)]
  else if (existing_qty =? 0) && (max_items <=? item_count) then
    ret [("err", JStr "MAX_ITEMS_EXCEEDED"); ("max", JInt max_items);
         ("current", JInt item_count)]
  else
    let item_data := item_table new_qty (Some (JStr price_snapshot)) (JStr variant) in
    update (λ st, HSET st cart_key product_id (encode item_data)) ;;;
    update (λ st, EXPIRE st cart_key ttl) ;;;
    ret [("ok", JBool true); ("quantity", JInt new_qty);
         ("is_new", JBool (existing_qty =? 0))].

(** [UPDATE_QUANTITY_SCRIPT] with [KEYS[1] = cart_key] and
    [ARGV = product_id, quantity, max_quantity, ttl]. *)
Definition UPDATE_QUANTITY_SCRIPT (cart_key product_id : string)
    (quantity max_quantity ttl : Z) : script table :=
  existing_item <- query (λ st, HGET st cart_key product_id) ;;
  match existing_item with
  | None => ret [("err", JStr "PRODUCT_NOT_FOUND")]
  | Some raw =>
      if quantity <? 0 then
        ret [("err", JStr "INVALID_QUANTITY"); ("quantity", JInt quantity)]
      else if max_quantity <? quantity then
        ret [("err", JStr "MAX_QUANTITY_EXCEEDED"); ("max", JInt max_quantity);
             ("requested", JInt quantity)]
      else
        existing_data <- cjson_decode raw ;;
        price_snapshot <- index existing_data "price_snapshot" ;;
        v <- index existing_data "variant" ;;
        let variant := or_empty v in
        if quantity =? 0 then
          command (λ st, HDEL st cart_key product_id) ;;;
          item_count <- query (λ st, HLEN st cart_key) ;;
          (if 0 <? item_count then update (λ st, EXPIRE st cart_key ttl)
           else command (λ st, DEL st cart_key) ;;; ret tt) ;;;
          ret [("ok", JBool true); ("quantity", JInt 0); ("removed", JBool true)]
        else
          let item_data := item_table quantity price_snapshot variant in
          update (λ st, HSET st cart_key product_id (encode item_data)) ;;;
          update (λ st, EXPIRE st cart_key ttl) ;;;
          ret [("ok", JBool true); ("quantity", JInt quantity);
               ("removed", JBool false)]
  end.

(** The first loop of [MERGE_CART_SCRIPT]: every target entry is decoded
    into [target_map]. *)
Fixpoint build_target_map (target_items : list (string * payload))
    (target_map : gmap string json) : script (gmap string json) :=
  match target_items with
  | [] => ret target_map
  | (product_id, raw) :: rest =>
      item_data <- cjson_decode raw ;;
      build_target_map rest (<[product_id := item_data]> target_map)
  end.

(** The second loop of [MERGE_CART_SCRIPT], over the source entries; it
    carries [merged_count] and [conflict_count]. *)
Fixpoint merge_loop (conflict_resolution target_key : string)
    (target_map : gmap string json) (source_items : list (string * payload))
    (merged_count conflict_count : Z) : script (Z * Z) :=
  match source_items with
  | [] => ret (merged_count, conflict_count)
  | (product_id, raw) :: rest =>
      source_data <- cjson_decode raw ;;
      sq <- index source_data "quantity" ;;
      let source_qty := tonumber_or_0 sq in
      match target_map !! product_id with
      | Some target_data =>
          if lua_truthy (Some target_data) then
            tq <- index target_data "quantity" ;;
            let target_qty := tonumber_or_0 tq in
            (if String.eqb conflict_resolution "sum" then
               let new_qty := source_qty + target_qty in
               price_snapshot <- index source_data "price_snapshot" ;;
               v <- index source_data "variant" ;;
               let item_data := item_table new_qty price_snapshot (or_empty v) in
               update (λ st, HSET st target_key product_id (encode item_data))
             else
               update (λ st, HSET st target_key product_id raw)) ;;;
            merge_loop conflict_resolution target_key target_map rest
              (merged_count + 1) (conflict_count + 1)
          else
            update (λ st, HSET st target_key product_id raw) ;;;
            merge_loop conflict_resolution target_key target_map rest
              (merged_count + 1) conflict_count
      | None =>
          update (λ st, HSET st target_key product_id raw) ;;;
          merge_loop conflict_resolution target_key target_map rest
            (merged_count + 1) conflict_count
      end
  end.

(** [MERGE_CART_SCRIPT] with [KEYS = source_key, target_key] and
    [ARGV = conflict_resolution, ttl]. *)
Definition MERGE_CART_SCRIPT (source_key target_key conflict_resolution : string)
    (ttl : Z) : script table :=
  source_items <- query (λ st, HGETALL st source_key) ;;
  if (length source_items =? 0)%nat then
    ret [("ok", JBool true); ("merged", JInt 0);
         ("message", JStr "Source cart is empty")]
  else
    target_items <- query (λ st, HGETALL st target_key) ;;
    target_map <- build_target_map target_items ∅ ;;
    counts <- merge_loop conflict_resolution target_key target_map source_items 0 0 ;;
    target_exists <- query (λ st, EXISTS st target_key) ;;
    (if target_exists then update (λ st, EXPIRE st target_key ttl) else ret tt) ;;;
    command (λ st, DEL st source_key) ;;;
    ret [("ok", JBool true); ("merged", JInt (fst counts));
         ("conflicts", JInt (snd counts));
         ("resolution", JStr conflict_resolution)].

(** ** Configuration, exceptions and replies *)

Record Config : Type := mk_Config {
  MAX_ITEMS_PER_CART : Z;
  MAX_QUANTITY_PER_ITEM : Z;
  CART_TTL_SECONDS : Z;
  GUEST_CART_TTL_SECONDS : Z
}.

(** The values of [app/config.py] when the environment sets none. *)
Definition default_config : Config :=
  mk_Config 200 99 (7 * 24 * 60 * 60) (1 * 24 * 60 * 60).

(** The exceptions of [app/exceptions.py]; [PyError] stands for an exception
    of Python or of one of its libraries, by name. *)
Inductive exn : Type :=
  | CartNotFoundError (cart_id : string)
  | ValidationError
  | LimitExceededError
  | RedisConnectionError
  | ProductNotFoundError (product_id : string)
  | PyError (name : string).

Abbreviation py := (prog exn).

(** What [RedisClient.eval] hands back. *)
Inductive reply : Type :=
  | RNone
  | RList (items : list reply)
  | RDict (t : table).

(** [RedisClient.eval]: the script runs in one piece; its table comes back
    as a dictionary, and a runtime error of the script comes back as an
    error of the cache, which [_retry_with_backoff] raises as
    [RedisConnectionError]. *)
Definition eval (s : script table) : py reply :=
  λ st, match s st with
        | (st', Done t) => (st', Done (RDict t))
        | (st', Failed _) => (st', Failed RedisConnectionError)
        end.

(** [try: m except Exception as e: raise h] *)
Definition try_except {A} (m : py A) (h : exn) : py A :=
  λ st, match m st with
        | (st', Done a) => (st', Done a)
        | (st', Failed _) => (st', Failed h)
        end.

(** Python truthiness of [d.get(k)]. *)
Definition py_truthy (v : option json) : bool :=
  match v with
  | None | Some JNull => false
  | Some (JBool b) => b
  | Some (JInt n) => negb (n =? 0)
  | Some (JStr s) => negb (String.eqb s "")
  | Some (JArr l) => negb (bool_decide (l = []))
  | Some (JObj m) => negb (bool_decide (m = []))
  end.

(** [v == "name"] *)
Definition is_str (v : option json) (name : string) : bool :=
  match v with
  | Some (JStr s) => String.eqb s name
  | _ => false
  end.

(** Truthiness of a stored text: only the empty text is false. *)
Definition text_truthy (p : payload) : bool :=
  match p with
  | Doc _ => true
  | NotJson raw => negb (String.eqb raw "")
  end.

(** [variant or ""] *)
Definition or_blank (variant : option string) : string := default "" variant.

(** ** The models of a read ([app/models.py]) and the parsing of an entry *)

Record CartItem : Type := mk_CartItem {
  product_id : string;
  quantity : Z;
  price_snapshot : Decimal;
  variant : option string
}.

Record CartResponse : Type := mk_CartResponse {
  cart_id : string;
  items : gmap string CartItem;
  total_items : Z;
  total_price : Decimal
}.

(** [Decimal(str(v))] for a decoded value [v]: a string is read as it is, an
    integer prints as its digits, and the text of any other value is no
    number. *)
Definition Decimal_of_json (v : json) : option Decimal :=
  match v with
  | JStr s => Decimal_of_string s
  | JInt n => Some (mk_Decimal n 0)
  | _ => None
  end.

(** The check of [CartItem] on [quantity: int, ge=0]: integers are taken,
    booleans and integer strings are converted, and the value must not be
    negative. *)
Definition validate_quantity (v : json) : option Z :=
  n ← match v with
      | JInt n => Some n
      | JBool b => Some (if b then 1 else 0)
      | JStr s => int_of_string s
      | _ => None
      end;
  if n <? 0 then None else Some n.

(** The check of [CartItem] on [variant: Optional[str]]. *)
Definition validate_variant (v : option json) : option (option string) :=
  match v with
  | None | Some JNull => Some None
  | Some (JStr s) => Some (Some s)
  | Some _ => None
  end.

(** The body of the [try] in the loop of [get_cart], for one entry. *)
Definition parse_item (product_id : string) (item_json : payload)
    : outcome exn CartItem :=
  match decode item_json with
  | None => Failed (PyError "JSONDecodeError")
  | Some (JObj members) =>
      match assoc "quantity" members with
      | None => Failed (PyError "KeyError")
      | Some q =>
          match assoc "price_snapshot" members with
          | None => Failed (PyError "KeyError")
          | Some p =>
              match Decimal_of_json p with
              | None => Failed (PyError "InvalidOperation")
              | Some price =>
                  match validate_quantity q, validate_variant (assoc "variant" members) with
                  | Some quantity, Some variant =>
                      Done (mk_CartItem product_id quantity price variant)
                  | _, _ => Failed (PyError "pydantic.ValidationError")
                  end
              end
          end
      end
  | Some _ => Failed (PyError "TypeError")
  end.

(** [except (json.JSONDecodeError, KeyError)] *)
Definition caught (e : exn) : bool :=
  match e with
  | PyError name => String.eqb name "JSONDecodeError" || String.eqb name "KeyError"
  | _ => false
  end.

(** The loop of [get_cart] over the entries, with its three accumulators. *)
Fixpoint get_cart_loop (items_data : list (string * payload))
    (items : gmap string CartItem) (total_price : Decimal) (total_items : Z)
    : outcome exn (gmap string CartItem * Decimal * Z) :=
  match items_data with
  | [] => Done (items, total_price, total_items)
  | (product_id, item_json) :: rest =>
      match parse_item product_id item_json with
      | Done item =>
          get_cart_loop rest (<[product_id := item]> items)
            (Decimal_add total_price
               (Decimal_mul_int (price_snapshot item) (quantity item)))
            (total_items + quantity item)
      | Failed e =>
          if caught e then get_cart_loop rest items total_price total_items
          else Failed e
      end
  end.

(** ** The cart service ([app/cart_service.py]) *)

Module AtomicScripts.

Definition add_item (cart_key product_id : string) (quantity : Z)
    (price_snapshot : string) (variant : option string)
    (max_items max_quantity ttl : Z) : py reply :=
  eval (ADD_ITEM_SCRIPT cart_key product_id quantity price_snapshot
          (or_blank variant) max_items max_quantity ttl).

Definition update_quantity (cart_key product_id : string)
    (quantity max_quantity ttl : Z) : py reply :=
  eval (UPDATE_QUANTITY_SCRIPT cart_key product_id quantity max_quantity ttl).

Definition merge_cart (source_key target_key conflict_resolution : string)
    (ttl : Z) : py reply :=
  eval (MERGE_CART_SCRIPT source_key target_key conflict_resolution ttl).

End AtomicScripts.

Module CartService.
Section WithConfig.

Variable cfg : Config.

Definition _get_cart_key (cart_id : string) : string := "cart:" +:+ cart_id.

Definition _get_ttl (is_guest : bool) : Z :=
  if is_guest then GUEST_CART_TTL_SECONDS cfg else CART_TTL_SECONDS cfg.

(** [add_item]; [price] is the text [str(price)] of the price. *)
Definition add_item (cart_id product_id : string) (quantity : Z)
    (price : string) (variant : option string) (is_guest : bool) : py table :=
  if quantity <=? 0 then raise ValidationError
  else if MAX_QUANTITY_PER_ITEM cfg <? quantity then raise LimitExceededError
  else
    let cart_key := _get_cart_key cart_id in
    let ttl := _get_ttl is_guest in
    result <- try_except
                (AtomicScripts.add_item cart_key product_id quantity price
                   (Some (or_blank variant)) (MAX_ITEMS_PER_CART cfg)
                   (MAX_QUANTITY_PER_ITEM cfg) ttl)
                RedisConnectionError ;;
    result <- match result with
              | RNone => raise ValidationError
              | RList [] =>
                  existing <- query (λ st, HGET st cart_key product_id) ;;
                  match existing with
                  | Some raw =>
                      if text_truthy raw then
                        match decode raw with
                        | None => raise (PyError "JSONDecodeError")
                        | Some (JObj members) =>
                            ret [("ok", JBool true);
                                 ("quantity",
                                  default (JInt quantity) (assoc "quantity" members));
                                 ("is_new", JBool false)]
                        | Some _ => raise (PyError "AttributeError")
                        end
                      else raise RedisConnectionError
                  | None => raise RedisConnectionError
                  end
              | RList [RDict t] => ret t
              | RList _ => raise ValidationError
              | RDict t => ret t
              end ;;
    if py_truthy (assoc "err" result) then
      let error := assoc "err" result in
      if is_str error "MAX_QUANTITY_EXCEEDED" then raise LimitExceededError
      else if is_str error "MAX_ITEMS_EXCEEDED" then raise LimitExceededError
      else raise ValidationError
    else if negb (py_truthy (assoc "ok" result)) then raise ValidationError
    else
      match assoc "quantity" result with
      | Some _ => ret result
      | None => ret (result ++ [("quantity", JInt quantity)])%list
      end.

Definition update_quantity (cart_id product_id : string) (quantity : Z)
    (is_guest : bool) : py reply :=
  if quantity <? 0 then raise ValidationError
  else if MAX_QUANTITY_PER_ITEM cfg <? quantity then raise LimitExceededError
  else
    let cart_key := _get_cart_key cart_id in
    let ttl := _get_ttl is_guest in
    result <- AtomicScripts.update_quantity cart_key product_id quantity
                (MAX_QUANTITY_PER_ITEM cfg) ttl ;;
    match result with
    | RDict t =>
        if py_truthy (assoc "err" t) then
          let error := assoc "err" t in
          if is_str error "PRODUCT_NOT_FOUND" then raise (ProductNotFoundError product_id)
          else if is_str error "MAX_QUANTITY_EXCEEDED" then raise LimitExceededError
          else ret result
        else ret result
    | _ => ret result
    end.

Definition remove_item (cart_id product_id : string) (is_guest : bool) : py bool :=
  let cart_key := _get_cart_key cart_id in
  let ttl := _get_ttl is_guest in
  deleted <- command (λ st, HDEL st cart_key product_id) ;;
  if 0 <? deleted then
    item_count <- query (λ st, HLEN st cart_key) ;;
    (if 0 <? item_count then update (λ st, EXPIRE st cart_key ttl)
     else command (λ st, DEL st cart_key) ;;; ret tt) ;;;
    ret true
  else ret false.

Definition get_cart (cart_id : string) : py CartResponse :=
let cart_key := _get_cart_key cart_id in
cart_exists <- query (λ st, EXISTS st cart_key) ;;
if negb cart_exists then raise (CartNotFoundError cart_id)
else
  items_data <- query (λ st, HGETALL st cart_key) ;;
  match items_data with
  | [] => ret (mk_CartResponse cart_id ∅ 0 (mk_Decimal 0 0))
  | _ =>
      match get_cart_loop items_data ∅ (mk_Decimal 0 0) 0 with
      | Done (items, total_price, total_items) =>
          ret (mk_CartResponse cart_id items total_items total_price)
      | Failed e => raise e
      end
  end.

Definition clear_cart (cart_id : string) : py bool :=
  let cart_key := _get_cart_key cart_id in
  deleted <- command (λ st, DEL st cart_key) ;;
  ret (0 <? deleted).

Definition merge_carts (source_cart_id target_cart_id conflict_resolution : string)
    (is_guest : bool) : py reply :=
  if negb (String.eqb conflict_resolution "sum"
           || String.eqb conflict_resolution "last-write-wins")
  then raise ValidationError
  else
    let source_key := _get_cart_key source_cart_id in
    let target_key := _get_cart_key target_cart_id in
    let ttl := _get_ttl false in
    source_exists <- query (λ st, EXISTS st source_key) ;;
    if negb source_exists then
      ret (RDict [("ok", JBool true); ("merged", JInt 0); ("conflicts", JInt 0);
                  ("message", JStr "Source cart is empty")])
    else
      AtomicScripts.merge_cart source_key target_key conflict_resolution ttl.

End WithConfig.
End CartService.


(** ** The retrying client ([RedisClient._retry_with_backoff]) *)

Module RedisClient.
Section Retry.

(** [A] is what the operation returns, [cause] what it raises. *)
Context {A cause : Type}.

(** How one call of [func] ends. *)
Inductive attempt : Type :=
  | Returns (v : A)
  | RaisesTransient (e : cause)    (* ConnectionError, TimeoutError *)
  | RaisesRedisError (e : cause).  (* any other RedisError *)

(** The two messages of [RedisConnectionError] the loop raises, each with
    the cause it wraps. *)
Inductive failure : Type :=
  | OperationFailedAfter (max_retries : nat) (e : cause)
  | RedisErrorWrapped (e : cause).

Inductive result : Type :=
  | Value (v : A)
  | Raised (f : failure)
  | NoValue.   (* the loop ran out without a call: [None] *)

(** What the loop does, in order. *)
Inductive event : Type :=
  | Call (attempt_no : nat)
  | Sleep (seconds : Q)
  | Reconnect.

(** [random.uniform(a, b)] for a draw [u] of the unit interval. *)
Definition uniform (a b u : Q) : Q := (a + (b - a) * u)%Q.

(** The rounds of the [for attempt in range(max_retries)] loop that are
    left; [func n] is how the call of round [n] ends and [draw n] the random
    draw of round [n]. *)
Fixpoint retry_rounds (func : nat → attempt) (draw : nat → Q)
    (max_retries : nat) (max_backoff : Q)
    (rounds_left attempt_no : nat) (backoff : Q) : list event * result :=
  match rounds_left with
  | O => ([], NoValue)
  | S rounds_left' =>
      match func attempt_no with
      | Returns v => ([Call attempt_no], Value v)
      | RaisesTransient e =>
          if (attempt_no =? max_retries - 1)%nat then
            ([Call attempt_no], Raised (OperationFailedAfter max_retries e))
          else
            let jitter := uniform 0 (backoff * (1 # 10)) (draw attempt_no) in
            let '(events, r) :=
              retry_rounds func draw max_retries max_backoff rounds_left'
                (S attempt_no) (Qmin (backoff * 2) max_backoff) in
            (Call attempt_no :: Sleep (backoff + jitter) :: Reconnect :: events, r)
      | RaisesRedisError e => ([Call attempt_no], Raised (RedisErrorWrapped e))
      end
  end.

Definition _retry_with_backoff (func : nat → attempt) (draw : nat → Q)
    (max_retries : nat) (initial_backoff max_backoff : Q) : list event * result :=
  retry_rounds func draw max_retries max_backoff max_retries 0 initial_backoff.

End Retry.

(** The defaults of [_retry_with_backoff], which every operation of the
    client uses. *)
Definition default_max_retries : nat := 3.
Definition default_initial_backoff : Q := 1 # 10.
Definition default_max_backoff : Q := 2.

End RedisClient.

(** ** Views of the stored state used in the statements *)

(** The quantity a script reads off a stored entry:
    [tonumber(cjson.decode(raw)['quantity']) or 0]; [None] when the read
    stops the script. *)
Definition stored_quantity (raw : payload) : option Z :=
  data ← decode raw; q ← lua_index data "quantity"; Some (tonumber_or_0 q).

(** [existing_qty] of [ADD_ITEM_SCRIPT]: the stored quantity of the product,
    0 when the cart does not have it. *)
Definition existing_quantity (st : store) (cart_key product_id : string) : option Z :=
  match HGET st cart_key product_id with
  | Some raw => stored_quantity raw
  | None => Some 0
  end.

(** An entry of the data model: a JSON object whose [quantity] is an
    integer and whose [price_snapshot] and [variant] are strings. *)
Definition item_view (raw : payload) : option (Z * string * string) :=
  match raw with
  | Doc (JObj members) =>
      match assoc "quantity" members, assoc "price_snapshot" members,
            assoc "variant" members with
      | Some (JInt q), Some (JStr price), Some (JStr variant) => Some (q, price, variant)
      | _, _, _ => None
      end
  | _ => None
  end.

(** The entry the scripts write for a quantity, a price text and a variant. *)
Definition item_payload (q : Z) (price variant : string) : payload :=
  encode (item_table q (Some (JStr price)) (JStr variant)).

(** A cart of the data model: every entry under the key is an item. *)
Definition well_formed_cart (st : store) (cart_key : string) : Prop :=
  map_Forall (λ _ raw, is_Some (item_view raw)) (hash_fields st cart_key).

#[global] Instance well_formed_cart_dec st cart_key :
  Decision (well_formed_cart st cart_key).
Proof. unfold well_formed_cart. apply _. Defined.

(** A member of a decoded value, [nil] when there is none to read. *)
Definition field_of (data : json) (k : string) : lua :=
  default None (lua_index data k).

(** What [MERGE_CART_SCRIPT] writes into the target for a source entry
    [raw], where [target_data] is the decoded entry the target has for the
    same product, if any. *)
Definition merge_write (conflict_resolution : string) (target_data : option json)
    (raw : payload) : payload :=
  match target_data, decode raw with
  | Some target_data, Some source_data =>
      if String.eqb conflict_resolution "sum" then
        encode (item_table
                  (tonumber_or_0 (field_of source_data "quantity")
                   + tonumber_or_0 (field_of target_data "quantity"))
                  (field_of source_data "price_snapshot")
                  (or_empty (field_of source_data "variant")))
      else raw
  | _, _ => raw
  end.

(** The source entries whose product the target map has too. *)
Definition conflicts_in (target_map : gmap string json)
    (source_items : list (string * payload)) : list (string * payload) :=
  filter (λ kv, is_Some (target_map !! kv.1)) source_items.

(** A stored entry that is a JSON object. *)
Definition is_object (raw : payload) : Prop := ∃ members, raw = Doc (JObj members).

(** The items [get_cart] reads off the entries that parse. *)
Definition entry_items (entries : list (string * payload)) : list CartItem :=
  omap (λ kv, match parse_item kv.1 kv.2 with
              | Done item => Some item
              | Failed _ => None
              end) entries.

(** The value of a decimal in units of [10 ^ - k], for [- k <= expo d]. *)
Definition scaled (k : Z) (d : Decimal) : Z := coef d * 10 ^ (expo d + k).

Definition Zsum (l : list Z) : Z := foldr Z.add 0 l.

(** ** Assertions on programs

    [triple P m Q R]: from a cache satisfying [P], the program [m] ends in a
    cache satisfying [Q a] when it returns [a], and in a cache satisfying [R]
    when it fails. *)
Definition triple {E A} (P : store → Prop) (m : prog E A)
    (Q : A → store → Prop) (R : store → Prop) : Prop :=
  ∀ st, P st →
    match m st with
    | (st', Done a) => Q a st'
    | (st', Failed _) => R st'
    end.

(** [preserves I m]: [I] holds after [m], however it ends, when it held
    before. *)
Definition preserves {E A} (I : store → Prop) (m : prog E A) : Prop :=
  triple I m (λ _, I) I.

(** ** Invariants of the cache *)

(** No key holds a hash without fields. *)
Definition no_empty_hash (st : store) : Prop :=
  ∀ key h, st !! key = Some h → fields h ≠ ∅.

(** The same, except possibly under [key]. *)
Definition no_empty_hash_but (key : string) (st : store) : Prop :=
  ∀ key' h, key' ≠ key → st !! key' = Some h → fields h ≠ ∅.

(** Every cart holds at most [max_items] products and every quantity the
    scripts can read off an entry is at most [max_quantity]. *)
Definition within_limits (max_items max_quantity : Z) (st : store) : Prop :=
  ∀ key, HLEN st key ≤ max_items ∧
         ∀ product_id raw q, HGET st key product_id = Some raw →
                             stored_quantity raw = Some q → q ≤ max_quantity.

(** ** Carts for the examples *)

(** A cart with 2 of A at 10 and 1 of B at 5. *)
Definition cart_AB : store :=
  HSET (HSET ∅ "cart:c" "A" (item_payload 2 "10" "")) "cart:c" "B"
    (item_payload 1 "5" "").

(** The carts of the specification's merge example: the target holds 2 of A
    at 10, the source 3 of A at 12 and 1 of B at 5. *)
Definition carts_to_merge : store :=
  HSET (HSET (HSET ∅ "cart:t" "A" (item_payload 2 "10" ""))
          "cart:s" "A" (item_payload 3 "12" ""))
    "cart:s" "B" (item_payload 1 "5" "").


(** ** The checkout ([app/checkout_service.py]) *)

(** [try: m except CartNotFoundError: raise h] *)
Definition except_CartNotFoundError {A} (m : py A) (h : exn) : py A :=
  λ st, match m st with
        | (st', Failed (CartNotFoundError _)) => (st', Failed h)
        | r => r
        end.

Module CheckoutService.

Record CheckoutResponse : Type := mk_CheckoutResponse {
  order_id : string;
  cart_id : string;
  total : Decimal;
  items : list CartItem;
  message : string
}.

(** The stock the simulated inventory check grants every product. *)
Definition available_stock : Z := 999.

(** [start_checkout]; [order_id] is the identifier the generator hands out
    for this order.  The record of the order that the code assembles only to
    print it is left out.  The items of the response come in the order of the
    map of the model, not in the order of the code's dictionary: statements
    take them up to their order. *)
Definition start_checkout (order_id cart_id : string) (user_id : option string)
    (validate_pricing : bool) : py CheckoutResponse :=
  cart <- except_CartNotFoundError (CartService.get_cart cart_id) ValidationError ;;
  let '(mk_CartResponse _ cart_items _ cart_total_price) := cart in
  if (size cart_items =? 0)%nat then raise ValidationError
  else
    let inventory_issues :=
      filter (λ kv, available_stock < quantity kv.2) (map_to_list cart_items) in
    match inventory_issues with
    | _ :: _ => raise ValidationError
    | [] =>
        CartService.clear_cart cart_id ;;;
        let items_list := (map_to_list cart_items).*2 in
        ret (mk_CheckoutResponse order_id cart_id cart_total_price items_list
               "Order placed successfully. Cart has been cleared.")
    end.

End CheckoutService.

(** ** More views for the statements *)

(** The delays the retry loop slept, in order. *)
Definition sleeps (events : list RedisClient.event) : list Q :=
  omap (λ ev, match ev with RedisClient.Sleep d => Some d | _ => None end) events.

(** The rounds the retry loop called the operation in, in order. *)
Definition calls (events : list RedisClient.event) : list nat :=
  omap (λ ev, match ev with RedisClient.Call n => Some n | _ => None end) events.

(** The reconnections of the retry loop. *)
Definition reconnects (events : list RedisClient.event) : nat :=
  length (omap (λ ev, match ev with
                      | RedisClient.Reconnect => Some tt
                      | _ => None
                      end) events).

(** An entry [get_cart] can deal with: it parses, or it fails in a way the
    loop catches. *)
Definition entry_readable (product_id : string) (raw : payload) : bool :=
  match parse_item product_id raw with
  | Done _ => true
  | Failed e => caught e
  end.

(** A cart [get_cart] can read: every entry under the key is readable. *)
Definition readable_cart (st : store) (cart_key : string) : Prop :=
  map_Forall (λ k raw, entry_readable k raw = true) (hash_fields st cart_key).

#[global] Instance readable_cart_dec st cart_key : Decision (readable_cart st cart_key).
Proof. unfold readable_cart. apply _. Defined.

(** The item [get_cart] makes of an entry, if it parses. *)
Definition parsed (product_id : string) (raw : payload) : option CartItem :=
  match parse_item product_id raw with
  | Done item => Some item
  | Failed _ => None
  end.

(** The sum of the quantities the scripts read off the entries of a cart. *)
Definition cart_quantity (st : store) (cart_key : string) : Z :=
  Zsum ((λ kv, default 0 (stored_quantity kv.2)) <$> HGETALL st cart_key).

(** No entry holds a quantity below 1, as far as the scripts can read it. *)
Definition positive_quantities (st : store) : Prop :=
  ∀ key product_id raw q,
    HGET st key product_id = Some raw → stored_quantity raw = Some q → 1 ≤ q.


(** The key [key] holds [h] (nothing, when [h] is [None]). *)
Definition key_holds (key : string) (h : option rhash) (st : store) : Prop :=
  st !! key = h.

(** The sum of [f] over the entries of a hash. *)
Definition hash_total (f : payload → Z) (m : gmap string payload) : Z :=
  Zsum ((λ kv, f kv.2) <$> map_to_list m).

(** Decoded entries whose quantities, as the scripts read them, are at
    least 1. *)
Definition positive_map (target_map : gmap string json) : Prop :=
  ∀ k data v, target_map !! k = Some data →
              lua_index data "quantity" = Some v → 1 ≤ tonumber_or_0 v.

(** The sum of the quantities of the items of a read. *)
Definition items_quantity (cart_items : gmap string CartItem) : Z :=
  Zsum (quantity <$> (map_to_list cart_items).*2).

(** * Properties *)

(** ** The cache commands *)

Section Commands.
Implicit Types (st : store) (key field : string) (v : payload).

Lemma lookup_HSET_ne st key field v key' :
    key ≠ key' → HSET st key field v !! key' = st !! key'.
  Proof.
    intros Hne. unfold HSET. destruct (st !! key); by rewrite lookup_insert_ne.
  Qed.

Lemma hash_fields_HSET st key field v :
    hash_fields (HSET st key field v) key = <[field := v]> (hash_fields st key).
  Proof.
    unfold hash_fields, HSET. destruct (st !! key) as [h|] eqn:E.
    - by rewrite lookup_insert_eq.
    - rewrite lookup_insert_eq. simpl. by rewrite insert_empty.
  Qed.

Lemma hash_fields_HSET_ne st key field v key' :
    key ≠ key' → hash_fields (HSET st key field v) key' = hash_fields st key'.
  Proof. intros Hne. unfold hash_fields. by rewrite lookup_HSET_ne. Qed.

Lemma HSET_is_Some st key field v : is_Some (HSET st key field v !! key).
  Proof. unfold HSET. destruct (st !! key); rewrite lookup_insert_eq; eauto. Qed.

Lemma TTL_HSET st key field v key' : TTL (HSET st key field v) key' = TTL st key'.
  Proof.
    unfold TTL. destruct (decide (key = key')) as [<-|Hne].
    - unfold HSET. destruct (st !! key) as [h|] eqn:E; rewrite lookup_insert_eq; simpl; done.
    - by rewrite lookup_HSET_ne.
  Qed.

Lemma HGET_HSET st key field v field' :
    HGET (HSET st key field v) key field'
    = if decide (field = field') then Some v else HGET st key field'.
  Proof. unfold HGET. rewrite hash_fields_HSET. apply lookup_insert. Qed.

Lemma lookup_EXPIRE_ne st key seconds key' :
    key ≠ key' → EXPIRE st key seconds !! key' = st !! key'.
  Proof.
    intros Hne. unfold EXPIRE. destruct (st !! key); [by rewrite lookup_insert_ne | done].
  Qed.

Lemma hash_fields_EXPIRE st key seconds key' :
    hash_fields (EXPIRE st key seconds) key' = hash_fields st key'.
  Proof.
    unfold hash_fields, EXPIRE. destruct (st !! key) as [h|] eqn:E; [|done].
    destruct (decide (key = key')) as [<-|Hne].
    - rewrite lookup_insert_eq, E. done.
    - by rewrite lookup_insert_ne.
  Qed.

Lemma EXPIRE_is_Some st key seconds key' :
    is_Some (EXPIRE st key seconds !! key') ↔ is_Some (st !! key').
  Proof.
    unfold EXPIRE. destruct (st !! key) as [h|] eqn:E; [|done].
    destruct (decide (key = key')) as [<-|Hne].
    - rewrite lookup_insert_eq, E. split; eauto.
    - by rewrite lookup_insert_ne.
  Qed.

Lemma TTL_EXPIRE st key seconds :
    is_Some (st !! key) → TTL (EXPIRE st key seconds) key = Some seconds.
  Proof.
    intros [h E]. unfold TTL, EXPIRE. rewrite E, lookup_insert_eq. done.
  Qed.

Lemma TTL_EXPIRE_ne st key seconds key' :
    key ≠ key' → TTL (EXPIRE st key seconds) key' = TTL st key'.
  Proof. intros Hne. unfold TTL. by rewrite lookup_EXPIRE_ne. Qed.

Lemma lookup_DEL st key key' :
    (DEL st key).2 !! key' = if decide (key = key') then None else st !! key'.
  Proof.
    unfold DEL. destruct (st !! key) as [h|] eqn:E; simpl.
    - apply lookup_delete.
    - case_decide; [by subst|done].
  Qed.

Lemma lookup_HDEL_ne st key field key' :
    key ≠ key' → (HDEL st key field).2 !! key' = st !! key'.
  Proof.
    intros Hne. unfold HDEL. destruct (st !! key) as [h|]; [|done].
    destruct (fields h !! field); simpl; [by rewrite lookup_insert_ne | done].
  Qed.

Lemma hash_fields_HDEL st key field :
    hash_fields (HDEL st key field).2 key = delete field (hash_fields st key).
  Proof.
    unfold hash_fields, HDEL. destruct (st !! key) as [h|] eqn:E; simpl.
    - destruct (fields h !! field) eqn:F; simpl.
      + by rewrite lookup_insert_eq.
      + rewrite E. symmetry. by apply delete_id.
    - rewrite E. by rewrite delete_empty.
  Qed.

Lemma HDEL_count st key field :
    (HDEL st key field).1 = match HGET st key field with Some _ => 1 | None => 0 end.
  Proof.
    unfold HDEL, HGET, hash_fields. destruct (st !! key) as [h|]; simpl; [|done].
    by destruct (fields h !! field).
  Qed.

Lemma HDEL_is_Some st key field key' :
    is_Some ((HDEL st key field).2 !! key') ↔ is_Some (st !! key').
  Proof.
    destruct (decide (key = key')) as [<-|Hne]; [|by rewrite lookup_HDEL_ne].
    unfold HDEL. destruct (st !! key) as [h|] eqn:E; simpl; rewrite ?E; [|done].
    destruct (fields h !! field); simpl; rewrite ?lookup_insert_eq, ?E; split; eauto.
  Qed.

Lemma TTL_HDEL st key field key' : TTL (HDEL st key field).2 key' = TTL st key'.
  Proof.
    unfold TTL. destruct (decide (key = key')) as [<-|Hne]; [|by rewrite lookup_HDEL_ne].
    unfold HDEL. destruct (st !! key) as [h|] eqn:E; simpl; rewrite ?E; [|done].
    destruct (fields h !! field); simpl; rewrite ?lookup_insert_eq, ?E; done.
  Qed.

Lemma HLEN_pos st key : 0 < HLEN st key ↔ hash_fields st key ≠ ∅.
  Proof.
    unfold HLEN. rewrite <- map_size_non_empty_iff. lia.
  Qed.

Lemma HLEN_nonneg st key : 0 ≤ HLEN st key.
  Proof. unfold HLEN. lia. Qed.

Lemma hash_fields_absent st key : st !! key = None → hash_fields st key = ∅.
  Proof. unfold hash_fields. by intros ->. Qed.

Lemma EXISTS_true st key : EXISTS st key = true ↔ is_Some (st !! key).
  Proof. unfold EXISTS. apply bool_decide_eq_true. Qed.

End Commands.

(** ** Adding an item *)

Lemma item_view_item_payload q price variant :
  item_view (item_payload q price variant) = Some (q, price, variant).
Proof. reflexivity. Qed.

Lemma stored_quantity_item raw q price variant :
  item_view raw = Some (q, price, variant) → stored_quantity raw = Some q.
Proof.
  destruct raw as [[| | | | |members]|]; try discriminate. simpl.
  unfold stored_quantity. simpl.
  destruct (assoc "quantity" members) as [[]|]; try discriminate.
  destruct (assoc "price_snapshot" members) as [[]|]; try discriminate.
  destruct (assoc "variant" members) as [[]|]; try discriminate.
  by intros [= -> _ _].
Qed.

(** The run of the script up to its decision, given what it reads. *)
Lemma ADD_ITEM_SCRIPT_run st cart_key product_id quantity price variant
    max_items max_quantity ttl existing :
  existing_quantity st cart_key product_id = Some existing →
  ADD_ITEM_SCRIPT cart_key product_id quantity price variant max_items max_quantity ttl st
  = let new_qty := existing + quantity in
    if max_quantity <? new_qty then
      (st, Done [("err", JStr "MAX_QUANTITY_EXCEEDED"); ("max", JInt max_quantity);
                 ("requested", JInt new_qty)])
    else if (existing =? 0) && (max_items <=? HLEN st cart_key) then
      (st, Done [("err", JStr "MAX_ITEMS_EXCEEDED"); ("max", JInt max_items);
                 ("current", JInt (HLEN st cart_key))])
    else
      (EXPIRE (HSET st cart_key product_id (item_payload new_qty price variant)) cart_key ttl,
       Done [("ok", JBool true); ("quantity", JInt new_qty);
             ("is_new", JBool (existing =? 0))]).
Proof.
  intros Hex. unfold existing_quantity in Hex.
  unfold ADD_ITEM_SCRIPT, bind, query. simpl.
  destruct (HGET st cart_key product_id) as [raw|]; simpl.
  - unfold stored_quantity in Hex. unfold cjson_decode, index, bind, need.
    destruct (decode raw) as [data|]; simpl in *; [|discriminate].
    destruct (lua_index data "quantity") as [q|]; simpl in *; [|discriminate].
    injection Hex as <-.
    destruct (max_quantity <? tonumber_or_0 q + quantity); [reflexivity|].
    destruct ((tonumber_or_0 q =? 0) && (max_items <=? HLEN st cart_key)); reflexivity.
  - injection Hex as <-. change (0 + quantity) with quantity.
    destruct (max_quantity <? quantity); [reflexivity|].
    destruct (max_items <=? HLEN st cart_key); reflexivity.
Qed.


(** ** Updating a quantity *)

Lemma item_view_inv raw q price variant :
  item_view raw = Some (q, price, variant) →
  ∃ members, raw = Doc (JObj members) ∧
    assoc "quantity" members = Some (JInt q) ∧
    assoc "price_snapshot" members = Some (JStr price) ∧
    assoc "variant" members = Some (JStr variant).
Proof.
  destruct raw as [[| | | | |members]|]; try discriminate. simpl.
  intros H. exists members. split; [done|].
  destruct (assoc "quantity" members) as [[]|]; try discriminate.
  destruct (assoc "price_snapshot" members) as [[]|]; try discriminate.
  destruct (assoc "variant" members) as [[]|]; try discriminate.
  by injection H as -> -> ->.
Qed.

(** The run of the script on a product the cart has, for a quantity within
    the limit. *)
Lemma UPDATE_QUANTITY_SCRIPT_run st cart_key product_id quantity max_quantity ttl
    raw members :
  HGET st cart_key product_id = Some raw →
  raw = Doc (JObj members) →
  0 ≤ quantity → quantity ≤ max_quantity →
  UPDATE_QUANTITY_SCRIPT cart_key product_id quantity max_quantity ttl st
  = if quantity =? 0 then
      let st1 := (HDEL st cart_key product_id).2 in
      (if 0 <? HLEN st1 cart_key then EXPIRE st1 cart_key ttl
       else (DEL st1 cart_key).2,
       Done [("ok", JBool true); ("quantity", JInt 0); ("removed", JBool true)])
    else
      (EXPIRE (HSET st cart_key product_id
                 (encode (item_table quantity (assoc "price_snapshot" members)
                            (or_empty (assoc "variant" members)))))
         cart_key ttl,
       Done [("ok", JBool true); ("quantity", JInt quantity);
             ("removed", JBool false)]).
Proof.
  intros Hget -> H0 Hmax.
  unfold UPDATE_QUANTITY_SCRIPT, bind, query. simpl. rewrite Hget.
  rewrite (proj2 (Z.ltb_ge _ _) H0), (proj2 (Z.ltb_ge _ _) Hmax). simpl.
  destruct (quantity =? 0); [|reflexivity].
  unfold command, update, ret. simpl.
  destruct (HDEL st cart_key product_id) as [n st1]. simpl.
  destruct (0 <? HLEN st1 cart_key); [reflexivity|].
  by destruct (DEL st1 cart_key).
Qed.

(** C3.  [UPDATE_QUANTITY_SCRIPT] on a product the cart holds as an entry of
    the data model, for a quantity between 0 and [max_quantity].  For 0 the
    product's entry is gone, the other entries are kept, the cart key is gone
    when no other entry remains and carries the expiry [ttl] otherwise, and
    the answer is [quantity = 0, removed = true].  For 1 and above the entry
    carries the new quantity with the stored price and variant, the other
    entries are kept, the expiry is [ttl], and the answer is
    [quantity = q, removed = false].  Other carts are never touched. *)
Theorem update_quantity_script_effect st cart_key product_id quantity max_quantity
    ttl raw q0 price variant :
  HGET st cart_key product_id = Some raw →
  item_view raw = Some (q0, price, variant) →
  0 ≤ quantity → quantity ≤ max_quantity →
  let run := UPDATE_QUANTITY_SCRIPT cart_key product_id quantity max_quantity ttl st in
  (∀ key, key ≠ cart_key → run.1 !! key = st !! key) ∧
  (∀ other, other ≠ product_id →
     HGET run.1 cart_key other = HGET st cart_key other) ∧
  (quantity = 0 →
     run.2 = Done [("ok", JBool true); ("quantity", JInt 0); ("removed", JBool true)] ∧
     HGET run.1 cart_key product_id = None ∧
     ((∀ other, other ≠ product_id → HGET st cart_key other = None) →
        run.1 !! cart_key = None) ∧
     ((∃ other, other ≠ product_id ∧ is_Some (HGET st cart_key other)) →
        is_Some (run.1 !! cart_key) ∧ TTL run.1 cart_key = Some ttl)) ∧
  (1 ≤ quantity →
     run.2 = Done [("ok", JBool true); ("quantity", JInt quantity);
                   ("removed", JBool false)] ∧
     (∃ raw', HGET run.1 cart_key product_id = Some raw' ∧
              item_view raw' = Some (quantity, price, variant)) ∧
     is_Some (run.1 !! cart_key) ∧
     TTL run.1 cart_key = Some ttl).
Proof.
  intros Hget Hview H0 Hmax run.
  destruct (item_view_inv _ _ _ _ Hview) as (members & -> & Hq & Hp & Hv).
  subst run.
  rewrite (UPDATE_QUANTITY_SCRIPT_run _ _ _ _ _ _ _ members Hget eq_refl H0 Hmax).
  rewrite Hp, Hv. simpl or_empty.
  assert (Hexists : is_Some (st !! cart_key)).
  { unfold HGET, hash_fields in Hget. destruct (st !! cart_key); [eauto|].
    by rewrite lookup_empty in Hget. }
  destruct (Z.eqb_spec quantity 0) as [->|Hnz]; cbv zeta.
  - set (st1 := (HDEL st cart_key product_id).2).
    assert (Hf1 : hash_fields st1 cart_key = delete product_id (hash_fields st cart_key))
      by apply hash_fields_HDEL.
    destruct (Z.ltb_spec 0 (HLEN st1 cart_key)) as [Hpos|Hzero]; simpl.
    + apply HLEN_pos in Hpos.
      split; [|split; [|split; [|lia]]].
      * intros key Hne. rewrite lookup_EXPIRE_ne by done. by apply lookup_HDEL_ne.
      * intros other Hne. unfold HGET. rewrite hash_fields_EXPIRE, Hf1.
        by apply lookup_delete_ne.
      * intros _. split; [done|]. split; [|split].
        -- unfold HGET. rewrite hash_fields_EXPIRE, Hf1. apply lookup_delete_eq.
        -- intros Hnone. exfalso. apply Hpos. rewrite Hf1. apply map_eq. intros f.
           rewrite lookup_empty. destruct (decide (product_id = f)) as [<-|Hne].
           ++ apply lookup_delete_eq.
           ++ rewrite lookup_delete_ne by done. by apply Hnone.
        -- intros _. split.
           ++ apply EXPIRE_is_Some, HDEL_is_Some, Hexists.
           ++ apply TTL_EXPIRE, HDEL_is_Some, Hexists.
    + assert (Hempty : hash_fields st1 cart_key = ∅).
      { destruct (decide (hash_fields st1 cart_key = ∅)) as [|Hne]; [done|].
        apply HLEN_pos in Hne. lia. }
      split; [|split; [|split; [|lia]]].
      * intros key Hne. rewrite lookup_DEL. case_decide; [congruence|].
        by apply lookup_HDEL_ne.
      * intros other Hne. unfold HGET at 1. unfold hash_fields at 1.
        rewrite lookup_DEL. case_decide; [|done]. rewrite lookup_empty.
        assert (hash_fields st1 cart_key !! other = None) as Hin
          by (by rewrite Hempty, lookup_empty).
        rewrite Hf1, lookup_delete_ne in Hin by done. by rewrite <- Hin.
      * intros _. split; [done|]. split; [|split].
        -- unfold HGET, hash_fields. rewrite lookup_DEL. case_decide; [|done].
           apply lookup_empty.
        -- intros _. rewrite lookup_DEL. by case_decide.
        -- intros (other & Hne & [x Hx]). exfalso.
           assert (hash_fields st1 cart_key !! other = Some x) as Hin.
           { rewrite Hf1, lookup_delete_ne by done. exact Hx. }
           rewrite Hempty, lookup_empty in Hin. discriminate.
  - set (st1 := HSET st cart_key product_id _).
    split; [|split; [|split; [lia|]]]; simpl.
    + intros key Hne. rewrite lookup_EXPIRE_ne by done. by apply lookup_HSET_ne.
    + intros other Hne. unfold HGET. rewrite hash_fields_EXPIRE.
      unfold st1. rewrite hash_fields_HSET. by apply lookup_insert_ne.
    + intros _. split; [done|]. split; [|split].
      * eexists. split.
        -- unfold HGET. rewrite hash_fields_EXPIRE. unfold st1.
           rewrite hash_fields_HSET. apply lookup_insert_eq.
        -- reflexivity.
      * apply EXPIRE_is_Some, HSET_is_Some.
      * apply TTL_EXPIRE, HSET_is_Some.
Qed.

(** The script looks for the product before anything else. *)
Lemma UPDATE_QUANTITY_SCRIPT_absent st cart_key product_id quantity max_quantity ttl :
  HGET st cart_key product_id = None →
  UPDATE_QUANTITY_SCRIPT cart_key product_id quantity max_quantity ttl st
  = (st, Done [("err", JStr "PRODUCT_NOT_FOUND")]).
Proof.
  intros Hget. unfold UPDATE_QUANTITY_SCRIPT, bind, query. simpl. by rewrite Hget.
Qed.



(** ** Rules for assertions on programs *)

Section Rules.
Context {E : Type}.
Implicit Types (P R : store → Prop).

Lemma triple_ret {A} P (Q : A → store → Prop) R (a : A) :
  (∀ st, P st → Q a st) → triple (E:=E) P (ret a) Q R.
Proof. intros H st HP. by apply H. Qed.

Lemma triple_raise {A} P (Q : A → store → Prop) R (e : E) :
  (∀ st, P st → R st) → triple P (raise e) Q R.
Proof. intros H st HP. by apply H. Qed.

Lemma triple_bind {A B} P (Q' : A → store → Prop) (Q : B → store → Prop) R
    (m : prog E A) (k : A → prog E B) :
  triple P m Q' R → (∀ a, triple (Q' a) (k a) Q R) → triple P (bind m k) Q R.
Proof.
  intros Hm Hk st HP. unfold bind. specialize (Hm st HP).
  destruct (m st) as [st' [a|e]]; [|done]. by apply Hk.
Qed.

Lemma triple_query {A} P (Q : A → store → Prop) R (f : store → A) :
  (∀ st, P st → Q (f st) st) → triple (E:=E) P (query f) Q R.
Proof. intros H st HP. by apply H. Qed.

Lemma triple_command {A} P (Q : A → store → Prop) R (f : store → A * store) :
  (∀ st, P st → Q (f st).1 (f st).2) → triple (E:=E) P (command f) Q R.
Proof.
  intros H st HP. unfold command. specialize (H st HP). by destruct (f st).
Qed.

Lemma triple_update P (Q : unit → store → Prop) R (f : store → store) :
  (∀ st, P st → Q tt (f st)) → triple (E:=E) P (update f) Q R.
Proof. intros H st HP. by apply H. Qed.

Lemma triple_need {A} P (Q : A → store → Prop) R (e : E) (o : option A) :
  (∀ a st, o = Some a → P st → Q a st) → (∀ st, P st → R st) →
  triple P (need e o) Q R.
Proof.
  intros H1 H2. destruct o; simpl; [apply triple_ret | apply triple_raise]; eauto.
Qed.

Lemma triple_weaken {A} P P' (Q Q' : A → store → Prop) R R' (m : prog E A) :
  triple P' m Q' R' →
  (∀ st, P st → P' st) → (∀ a st, Q' a st → Q a st) → (∀ st, R' st → R st) →
  triple P m Q R.
Proof.
  intros Hm HP HQ HR st Hst. specialize (Hm st (HP st Hst)).
  destruct (m st) as [st' [a|e]]; eauto.
Qed.

Lemma preserves_bind {A B} P (m : prog E A) (k : A → prog E B) :
  preserves P m → (∀ a, preserves P (k a)) → preserves P (bind m k).
Proof. intros Hm Hk. eapply triple_bind; [exact Hm | exact Hk]. Qed.

Lemma preserves_ret {A} P (a : A) : preserves (E:=E) P (ret a).
Proof. by apply triple_ret. Qed.

Lemma preserves_raise {A} P (e : E) : preserves (A:=A) P (raise e).
Proof. by apply triple_raise. Qed.

Lemma preserves_query {A} P (f : store → A) : preserves (E:=E) P (query f).
Proof. by apply triple_query. Qed.

Lemma preserves_need {A} P (e : E) (o : option A) : preserves P (need e o).
Proof. by apply triple_need. Qed.

Lemma preserves_update P (f : store → store) :
  (∀ st, P st → P (f st)) → preserves (E:=E) P (update f).
Proof. intros H. by apply triple_update. Qed.

Lemma preserves_command {A} P (f : store → A * store) :
  (∀ st, P st → P (f st).2) → preserves (E:=E) P (command f).
Proof. intros H. by apply triple_command. Qed.

End Rules.

Lemma preserves_eval P (s : script table) : preserves P s → preserves P (eval s).
Proof.
  intros Hs st HP. unfold eval. specialize (Hs st HP).
  by destruct (s st) as [st' [t|e]].
Qed.

Lemma preserves_try_except {A} P (m : py A) (h : exn) :
  preserves P m → preserves P (try_except m h).
Proof.
  intros Hm st HP. unfold try_except. specialize (Hm st HP).
  by destruct (m st) as [st' [t|e]].
Qed.

Lemma preserves_cjson_decode P raw : preserves P (cjson_decode raw).
Proof. apply preserves_need. Qed.

Lemma preserves_index P v k : preserves P (index v k).
Proof. apply preserves_need. Qed.

(** Takes a program apart along its binds, branches and read-only steps;
    what is left are the commands that write. *)
Ltac step_preserves :=
  repeat first
    [ apply preserves_ret
    | apply preserves_raise
    | apply preserves_query
    | apply preserves_need
    | apply preserves_cjson_decode
    | apply preserves_index
    | apply preserves_eval
    | apply preserves_try_except
    | match goal with
      | |- preserves _ (bind ?m _) =>
          lazymatch m with
          | command _ => fail
          | _ => apply preserves_bind; [|intros ?]
          end
      end
    | match goal with
      | |- preserves _ (if ?b then _ else _) => destruct b
      | |- preserves _ (match ?x with _ => _ end) => destruct x
      | |- preserves _ (let _ := _ in _) => cbv zeta
      end ].

Lemma preserves_run {E A} (I : store → Prop) (m : prog E A) st :
  preserves I m → I st → I (m st).1.
Proof.
  intros Hm HI. specialize (Hm st HI). by destruct (m st) as [st' [a|e]].
Qed.

Lemma preserves_build_target_map P target_items target_map :
  preserves P (build_target_map target_items target_map).
Proof.
  revert target_map. induction target_items as [|[product_id raw] rest IH];
    intros target_map; simpl; step_preserves. apply IH.
Qed.

Lemma preserves_merge_loop P conflict_resolution target_key target_map source_items
    merged_count conflict_count :
  (∀ st field v, P st → P (HSET st target_key field v)) →
  preserves P (merge_loop conflict_resolution target_key target_map source_items
                 merged_count conflict_count).
Proof.
  intros HP. revert merged_count conflict_count.
  induction source_items as [|[product_id raw] rest IH];
    intros merged_count conflict_count; simpl; step_preserves;
    try apply IH; apply preserves_update; intros; by apply HP.
Qed.

(** ** No hash is left without fields *)

Lemma no_empty_hash_weaken key st : no_empty_hash st → no_empty_hash_but key st.
Proof. intros H key' h _. apply H. Qed.

Lemma no_empty_hash_HSET st key field v :
  no_empty_hash st → no_empty_hash (HSET st key field v).
Proof.
  intros H key' h. destruct (decide (key = key')) as [<-|Hne].
  - unfold HSET. destruct (st !! key) as [h0|]; rewrite lookup_insert_eq;
      intros [= <-]; simpl.
    + apply insert_non_empty.
    + apply insert_non_empty.
  - rewrite lookup_HSET_ne by done. apply H.
Qed.

Lemma no_empty_hash_EXPIRE st key seconds :
  no_empty_hash st → no_empty_hash (EXPIRE st key seconds).
Proof.
  intros H key' h. unfold EXPIRE. destruct (st !! key) as [h0|] eqn:E; [|apply H].
  destruct (decide (key = key')) as [<-|Hne].
  - rewrite lookup_insert_eq. intros [= <-]. simpl. by apply (H key).
  - rewrite lookup_insert_ne by done. apply H.
Qed.

Lemma no_empty_hash_but_DEL st key :
  no_empty_hash_but key st → no_empty_hash (DEL st key).2.
Proof.
  intros H key' h. rewrite lookup_DEL. case_decide; [done|]. by apply H.
Qed.

Lemma no_empty_hash_DEL st key : no_empty_hash st → no_empty_hash (DEL st key).2.
Proof. intros H. by apply no_empty_hash_but_DEL, no_empty_hash_weaken. Qed.

Lemma no_empty_hash_but_HDEL st key field :
  no_empty_hash st → no_empty_hash_but key (HDEL st key field).2.
Proof.
  intros H key' h Hne. rewrite lookup_HDEL_ne by done. apply H.
Qed.

Lemma no_empty_hash_HDEL_none st key field :
  no_empty_hash st → (HDEL st key field).1 ≤ 0 → no_empty_hash (HDEL st key field).2.
Proof.
  intros H. unfold HDEL. destruct (st !! key) as [h|]; [|done].
  destruct (fields h !! field); simpl; [lia | done].
Qed.

Lemma no_empty_hash_but_EXPIRE st key seconds :
  no_empty_hash_but key st → 0 < HLEN st key → no_empty_hash (EXPIRE st key seconds).
Proof.
  intros H Hpos key' h. apply HLEN_pos in Hpos.
  unfold EXPIRE. destruct (st !! key) as [h0|] eqn:E.
  - destruct (decide (key = key')) as [<-|Hne].
    + rewrite lookup_insert_eq. intros [= <-]. simpl.
      unfold hash_fields in Hpos. by rewrite E in Hpos.
    + rewrite lookup_insert_ne by done. by apply H.
  - destruct (decide (key = key')) as [<-|Hne]; [by rewrite E | by apply H].
Qed.

(** What the code does after taking a field out: refresh the expiry when
    fields remain, delete the key otherwise. *)
Lemma refresh_or_delete {E A} key ttl (a : A) :
  triple (E:=E) (no_empty_hash_but key)
    (item_count <- query (λ st, HLEN st key) ;;
     (if 0 <? item_count then update (λ st, EXPIRE st key ttl)
      else command (λ st, DEL st key) ;;; ret tt) ;;;
     ret a)
    (λ _, no_empty_hash) no_empty_hash.
Proof.
  eapply triple_bind with
    (Q' := λ n st, no_empty_hash_but key st ∧ n = HLEN st key).
  - by apply triple_query.
  - intros n. eapply triple_bind with (Q' := λ _, no_empty_hash);
      [|intros; by apply triple_ret].
    destruct (Z.ltb_spec 0 n).
    + apply triple_update. intros st [H1 ->]. by apply no_empty_hash_but_EXPIRE.
    + eapply triple_bind with (Q' := λ _, no_empty_hash); [|intros; by apply triple_ret].
      apply triple_command. intros st [H1 _]. by apply no_empty_hash_but_DEL.
Qed.

Lemma ADD_ITEM_SCRIPT_no_empty_hash cart_key product_id quantity price variant
    max_items max_quantity ttl :
  preserves no_empty_hash
    (ADD_ITEM_SCRIPT cart_key product_id quantity price variant max_items max_quantity ttl).
Proof.
  unfold ADD_ITEM_SCRIPT. step_preserves; apply preserves_update; intros.
  - by apply no_empty_hash_HSET.
  - by apply no_empty_hash_EXPIRE.
Qed.

Lemma UPDATE_QUANTITY_SCRIPT_no_empty_hash cart_key product_id quantity max_quantity ttl :
  preserves no_empty_hash
    (UPDATE_QUANTITY_SCRIPT cart_key product_id quantity max_quantity ttl).
Proof.
  unfold UPDATE_QUANTITY_SCRIPT. step_preserves.
  - eapply triple_bind with (Q' := λ _, no_empty_hash_but cart_key).
    + apply triple_command. intros. by apply no_empty_hash_but_HDEL.
    + intros _. apply refresh_or_delete.
  - apply preserves_update. intros. by apply no_empty_hash_HSET.
  - apply preserves_update. intros. by apply no_empty_hash_EXPIRE.
Qed.

Lemma MERGE_CART_SCRIPT_no_empty_hash source_key target_key conflict_resolution ttl :
  preserves no_empty_hash
    (MERGE_CART_SCRIPT source_key target_key conflict_resolution ttl).
Proof.
  unfold MERGE_CART_SCRIPT. step_preserves.
  - apply preserves_build_target_map.
  - apply preserves_merge_loop. intros. by apply no_empty_hash_HSET.
  - apply preserves_update. intros. by apply no_empty_hash_EXPIRE.
  - apply preserves_bind; [|intros; apply preserves_ret].
    apply preserves_command. intros. by apply no_empty_hash_DEL.
Qed.

(** C5.  Every mutating operation of the service keeps the invariant that
    no cart key holds a hash without fields: when it holds before
    [add_item], [update_quantity], [remove_item], [clear_cart] or
    [merge_carts], it holds in the cache the operation leaves, whether the
    operation succeeds or fails. *)
Theorem mutations_leave_no_empty_hash cfg st :
  no_empty_hash st →
  (∀ cart_id product_id quantity price variant is_guest,
     no_empty_hash
       (CartService.add_item cfg cart_id product_id quantity price variant is_guest st).1) ∧
  (∀ cart_id product_id quantity is_guest,
     no_empty_hash
       (CartService.update_quantity cfg cart_id product_id quantity is_guest st).1) ∧
  (∀ cart_id product_id is_guest,
     no_empty_hash (CartService.remove_item cfg cart_id product_id is_guest st).1) ∧
  (∀ cart_id, no_empty_hash (CartService.clear_cart cart_id st).1) ∧
  (∀ source_cart_id target_cart_id conflict_resolution is_guest,
     no_empty_hash
       (CartService.merge_carts cfg source_cart_id target_cart_id conflict_resolution
          is_guest st).1).
Proof.
  intros HI.
  split; [|split; [|split; [|split]]]; intros c; intros; apply preserves_run; try done.
  - unfold CartService.add_item, AtomicScripts.add_item. step_preserves;
      apply ADD_ITEM_SCRIPT_no_empty_hash.
  - unfold CartService.update_quantity, AtomicScripts.update_quantity.
    step_preserves; apply UPDATE_QUANTITY_SCRIPT_no_empty_hash.
  - unfold CartService.remove_item. cbv zeta.
    eapply triple_bind with
      (Q' := λ deleted st', no_empty_hash_but (CartService._get_cart_key c) st' ∧
                            (deleted ≤ 0 → no_empty_hash st')).
    + apply triple_command. intros st0 H0. split.
      * by apply no_empty_hash_but_HDEL.
      * by apply no_empty_hash_HDEL_none.
    + intros deleted. destruct (Z.ltb_spec 0 deleted).
      * eapply triple_weaken; [apply refresh_or_delete | | |]; simpl; [|done..].
        by intros st0 [H0 _].
      * apply triple_ret. intros st0 [_ H0]. by apply H0.
  - unfold CartService.clear_cart. cbv zeta. apply preserves_bind; [|intros; apply preserves_ret].
    apply preserves_command. intros. by apply no_empty_hash_DEL.
  - unfold CartService.merge_carts, AtomicScripts.merge_cart. step_preserves.
    apply MERGE_CART_SCRIPT_no_empty_hash.
Qed.

(** ** The configured limits *)

(** The limits only look at the fields of the hashes. *)
Lemma within_limits_ext max_items max_quantity st st' :
  (∀ key, hash_fields st' key = hash_fields st key) →
  within_limits max_items max_quantity st → within_limits max_items max_quantity st'.
Proof.
  intros Heq H key. unfold HLEN, HGET. rewrite Heq. apply H.
Qed.

Lemma within_limits_EXPIRE max_items max_quantity st key seconds :
  within_limits max_items max_quantity st →
  within_limits max_items max_quantity (EXPIRE st key seconds).
Proof. apply within_limits_ext. intros. apply hash_fields_EXPIRE. Qed.

(** Writing an entry whose quantity is within the limit, over an entry that
    is there or into a cart that has room. *)
Lemma within_limits_HSET max_items max_quantity st key field v :
  within_limits max_items max_quantity st →
  (∀ q, stored_quantity v = Some q → q ≤ max_quantity) →
  is_Some (HGET st key field) ∨ HLEN st key < max_items →
  within_limits max_items max_quantity (HSET st key field v).
Proof.
  intros H Hv Hroom key'. destruct (decide (key = key')) as [<-|Hne].
  - split.
    + unfold HLEN. rewrite hash_fields_HSET. destruct Hroom as [[x Hx]|Hlt].
      * rewrite map_size_insert_Some by (unfold HGET in Hx; eauto). apply H.
      * pose proof (map_size_insert field v (hash_fields st key)) as Hs.
        unfold HLEN in Hlt.
        destruct (hash_fields st key !! field); unfold id in Hs; lia.
    + intros product_id raw q. rewrite HGET_HSET. case_decide.
      * intros [= <-]. apply Hv.
      * apply H.
  - unfold HLEN, HGET. rewrite hash_fields_HSET_ne by done. apply H.
Qed.

(** Taking a field out. *)
Lemma within_limits_HDEL max_items max_quantity st key field :
  within_limits max_items max_quantity st →
  within_limits max_items max_quantity (HDEL st key field).2.
Proof.
  intros H key'. destruct (decide (key = key')) as [<-|Hne].
  - unfold HLEN, HGET. rewrite hash_fields_HDEL. split.
    + pose proof (map_size_delete field (hash_fields st key)) as Hs.
      destruct (H key) as [Hlen _]. unfold HLEN in Hlen.
      destruct (hash_fields st key !! field); unfold id in Hs; lia.
    + intros product_id raw q Hget. apply (proj2 (H key) product_id).
      unfold HGET. by apply lookup_delete_Some in Hget as [_ ?].
  - unfold HLEN, HGET, hash_fields. rewrite lookup_HDEL_ne by done. apply (H key').
Qed.

(** Deleting a key. *)
Lemma within_limits_DEL max_items max_quantity st key :
  within_limits max_items max_quantity st →
  within_limits max_items max_quantity (DEL st key).2.
Proof.
  intros H key'. pose proof (H key') as [Hlen Hq].
  pose proof (HLEN_nonneg st key') as Hnn.
  unfold HLEN, HGET, hash_fields. rewrite lookup_DEL. case_decide.
  - split.
    + rewrite map_size_empty. lia.
    + intros ???. by rewrite lookup_empty.
  - apply (H key').
Qed.

Lemma stored_quantity_item_table q price variant :
  stored_quantity (encode (item_table q price variant)) = Some q.
Proof. reflexivity. Qed.

Lemma ADD_ITEM_SCRIPT_stops st cart_key product_id quantity price variant
    max_items max_quantity ttl :
  existing_quantity st cart_key product_id = None →
  (ADD_ITEM_SCRIPT cart_key product_id quantity price variant max_items max_quantity
     ttl st).1 = st.
Proof.
  unfold existing_quantity, ADD_ITEM_SCRIPT, bind, query. simpl.
  destruct (HGET st cart_key product_id) as [raw|]; [|discriminate].
  unfold stored_quantity, cjson_decode, index, bind, need.
  destruct (decode raw) as [data|]; simpl; [|done].
  destruct (lua_index data "quantity") as [q|]; simpl; [discriminate|done].
Qed.

Lemma ADD_ITEM_SCRIPT_within_limits cart_key product_id quantity price variant
    max_items max_quantity ttl :
  preserves (within_limits max_items max_quantity)
    (ADD_ITEM_SCRIPT cart_key product_id quantity price variant max_items max_quantity ttl).
Proof.
  intros st H.
  destruct (existing_quantity st cart_key product_id) as [existing|] eqn:Hex.
  - rewrite (ADD_ITEM_SCRIPT_run _ _ _ _ _ _ _ _ _ _ Hex). cbv zeta.
    destruct (Z.ltb_spec max_quantity (existing + quantity)); [done|].
    destruct ((existing =? 0) && (max_items <=? HLEN st cart_key)) eqn:Hfull; [done|].
    apply within_limits_EXPIRE, within_limits_HSET; [done| |].
    + intros q. unfold item_payload. rewrite stored_quantity_item_table.
      intros [= <-]. done.
    + unfold existing_quantity in Hex.
      destruct (HGET st cart_key product_id) as [raw|]; [left; eauto|].
      injection Hex as <-. simpl in Hfull. right. by apply Z.leb_gt.
  - pose proof (ADD_ITEM_SCRIPT_stops st cart_key product_id quantity price variant
                  max_items max_quantity ttl Hex) as Hst.
    destruct (ADD_ITEM_SCRIPT _ _ _ _ _ _ _ _ st) as [st' [t|e]]; simpl in Hst; by subst.
Qed.

Lemma UPDATE_QUANTITY_SCRIPT_within_limits cart_key product_id quantity max_items
    max_quantity ttl :
  preserves (within_limits max_items max_quantity)
    (UPDATE_QUANTITY_SCRIPT cart_key product_id quantity max_quantity ttl).
Proof.
  intros st H. unfold UPDATE_QUANTITY_SCRIPT, bind, query. simpl.
  destruct (HGET st cart_key product_id) as [raw|] eqn:Hget; [|done].
  destruct (quantity <? 0); [done|].
  destruct (Z.ltb_spec max_quantity quantity); [done|].
  unfold cjson_decode, index, need.
  destruct (decode raw) as [data|]; simpl; [|done].
  destruct (lua_index data "price_snapshot") as [price|]; simpl; [|done].
  destruct (lua_index data "variant") as [v|]; simpl; [|done].
  destruct (quantity =? 0).
  - unfold command, update, ret.
    pose proof (within_limits_HDEL _ _ _ cart_key product_id H) as H1.
    destruct (HDEL st cart_key product_id) as [n st1]. simpl in *.
    destruct (0 <? HLEN st1 cart_key).
    + by apply within_limits_EXPIRE.
    + pose proof (within_limits_DEL _ _ _ cart_key H1) as H2.
      by destruct (DEL st1 cart_key).
  - unfold update, ret. simpl.
    apply within_limits_EXPIRE, within_limits_HSET; [done| |left; eauto].
    intros q. rewrite stored_quantity_item_table. by intros [= <-].
Qed.


(** ** Merging carts *)

Lemma item_view_is_object raw : is_Some (item_view raw) → is_object raw.
Proof.
  intros [[[q price] variant] H].
  destruct (item_view_inv _ _ _ _ H) as (members & -> & _). by exists members.
Qed.

(** The first loop reads every target entry. *)
Lemma build_target_map_run target_items :
  NoDup target_items.*1 →
  (∀ k raw, (k, raw) ∈ target_items → is_object raw) →
  ∀ target_map st, ∃ target_map',
    build_target_map target_items target_map st = (st, Done target_map') ∧
    ∀ k, target_map' !! k
         = match (list_to_map target_items : gmap string payload) !! k with
           | Some raw => decode raw
           | None => target_map !! k
           end.
Proof.
  induction target_items as [|[k0 raw0] rest IH]; intros Hnd Hobj target_map st.
  - exists target_map. split; [done|]. intros k. simpl. by rewrite lookup_empty.
  - destruct (Hobj k0 raw0) as [members ->]; [left|].
    apply NoDup_cons in Hnd as [Hk0 Hnd].
    destruct (IH Hnd (λ k raw H, Hobj k raw (list_elem_of_further _ _ _ H))
                (<[k0 := JObj members]> target_map) st) as (tm' & Hrun & Hlook).
    exists tm'. split.
    + simpl. unfold bind, cjson_decode, need. simpl. exact Hrun.
    + intros k. rewrite Hlook. simpl. destruct (decide (k0 = k)) as [<-|Hne].
      * rewrite lookup_insert_eq.
        rewrite (proj1 (not_elem_of_list_to_map rest k0) Hk0).
        by rewrite lookup_insert_eq.
      * rewrite !(lookup_insert_ne _ k0 k) by done. done.
Qed.

(** One round of the second loop, on a source entry that is an object. *)
Lemma merge_loop_step conflict_resolution target_key target_map k0 members rest
    merged_count conflict_count st :
  (∀ k data, target_map !! k = Some data → ∃ tmembers, data = JObj tmembers) →
  merge_loop conflict_resolution target_key target_map
    ((k0, Doc (JObj members)) :: rest) merged_count conflict_count st
  = merge_loop conflict_resolution target_key target_map rest (merged_count + 1)
      (match target_map !! k0 with
       | Some _ => conflict_count + 1
       | None => conflict_count
       end)
      (HSET st target_key k0
         (merge_write conflict_resolution (target_map !! k0) (Doc (JObj members)))).
Proof.
  intros Htm. simpl. unfold merge_write.
  destruct (target_map !! k0) as [tdata|] eqn:Htk; [|reflexivity].
  destruct (Htm _ _ Htk) as [tmembers ->]. simpl.
  destruct (String.eqb conflict_resolution "sum"); reflexivity.
Qed.

(** The second loop writes one target entry per source entry. *)
Lemma merge_loop_run conflict_resolution target_key target_map source_items :
  NoDup source_items.*1 →
  (∀ k raw, (k, raw) ∈ source_items → is_object raw) →
  (∀ k data, target_map !! k = Some data → ∃ members, data = JObj members) →
  ∀ merged_count conflict_count st, ∃ st',
    merge_loop conflict_resolution target_key target_map source_items
      merged_count conflict_count st
    = (st', Done (merged_count + Z.of_nat (length source_items),
                  conflict_count
                  + Z.of_nat (length (conflicts_in target_map source_items)))) ∧
    (∀ key, key ≠ target_key → st' !! key = st !! key) ∧
    TTL st' target_key = TTL st target_key ∧
    (source_items ≠ [] → is_Some (st' !! target_key)) ∧
    ∀ k, HGET st' target_key k
         = match (list_to_map source_items : gmap string payload) !! k with
           | Some raw => Some (merge_write conflict_resolution (target_map !! k) raw)
           | None => HGET st target_key k
           end.
Proof.
  intros Hnd Hobj Htm.
  induction source_items as [|[k0 raw0] rest IH]; intros merged_count conflict_count st.
  - exists st. simpl. rewrite !Z.add_0_r. repeat split; try done.
  - destruct (Hobj k0 raw0) as [members ->]; [left|].
    apply NoDup_cons in Hnd as [Hk0 Hnd].
    specialize (IH Hnd (λ k raw H, Hobj k raw (list_elem_of_further _ _ _ H))).
    rewrite merge_loop_step by done.
    set (w := merge_write conflict_resolution (target_map !! k0) (Doc (JObj members))).
    match goal with
    | |- context [merge_loop _ _ _ rest ?m ?c ?s] =>
        destruct (IH m c s) as (st' & Hrun & Hother & Httl & _ & Hlook)
    end.
    exists st'. split; [|split; [|split; [|split]]].
    + rewrite Hrun. f_equal. f_equal. f_equal.
      * simpl length. lia.
      * unfold conflicts_in. rewrite filter_cons. simpl fst.
        destruct (target_map !! k0) as [tdata|] eqn:Htk.
        -- rewrite decide_True by eauto. simpl length. lia.
        -- rewrite decide_False by (by intros [? ?]). done.
    + intros key Hne. rewrite Hother by done. by apply lookup_HSET_ne.
    + rewrite Httl. apply TTL_HSET.
    + intros _.
      destruct (st' !! target_key) as [h'|] eqn:E; [eauto|].
      exfalso. specialize (Hlook k0).
      rewrite (proj1 (not_elem_of_list_to_map rest k0) Hk0) in Hlook.
      rewrite HGET_HSET, decide_True in Hlook by done.
      unfold HGET, hash_fields in Hlook. rewrite E in Hlook.
      by rewrite lookup_empty in Hlook.
    + intros k. rewrite Hlook. simpl. destruct (decide (k0 = k)) as [<-|Hne].
      * rewrite lookup_insert_eq.
        rewrite (proj1 (not_elem_of_list_to_map rest k0) Hk0).
        rewrite HGET_HSET. by rewrite decide_True.
      * rewrite lookup_insert_ne by done. rewrite HGET_HSET.
        by rewrite decide_False.
Qed.

(** The conflicts the loop counts are the products both carts have. *)
Lemma conflicts_in_size (source target : gmap string payload)
    (target_map : gmap string json) :
  (∀ k, is_Some (target_map !! k) ↔ is_Some (target !! k)) →
  length (conflicts_in target_map (map_to_list source))
  = size (dom source ∩ dom target).
Proof.
  intros Htm. unfold conflicts_in.
  set (P := λ kv : string * payload, is_Some (target_map !! kv.1)).
  assert (Hdom : dom (filter P source) = dom source ∩ dom target).
  { apply dom_filter_L. intros k. rewrite elem_of_intersection, !elem_of_dom.
    unfold P. simpl. rewrite <- Htm. split.
    - intros [[x Hx] Ht]. eauto.
    - intros (x & Hx & Ht). eauto. }
  rewrite <- Hdom, size_dom, <- length_map_to_list, map_filter_alt.
  symmetry. apply Permutation_length, map_to_list_to_map.
  eapply sublist_NoDup; [apply (NoDup_fst_map_to_list source)|].
  apply fmap_sublist, sublist_filter.
Qed.

(** The run of the script on a source with entries, all entries of both
    carts being objects: [st1] is the cache after the second loop. *)
Lemma MERGE_CART_SCRIPT_run st source_key target_key conflict_resolution ttl :
  hash_fields st source_key ≠ ∅ →
  (∀ k raw, HGET st source_key k = Some raw → is_object raw) →
  (∀ k raw, HGET st target_key k = Some raw → is_object raw) →
  ∃ st1,
    MERGE_CART_SCRIPT source_key target_key conflict_resolution ttl st
    = ((DEL (EXPIRE st1 target_key ttl) source_key).2,
       Done [("ok", JBool true); ("merged", JInt (HLEN st source_key));
             ("conflicts",
              JInt (Z.of_nat (size (dom (hash_fields st source_key)
                                    ∩ dom (hash_fields st target_key)))));
             ("resolution", JStr conflict_resolution)]) ∧
    (∀ key, key ≠ target_key → st1 !! key = st !! key) ∧
    is_Some (st1 !! target_key) ∧
    ∀ k, HGET st1 target_key k
         = match HGET st source_key k with
           | Some raw =>
               Some (merge_write conflict_resolution
                       (HGET st target_key k ≫= decode) raw)
           | None => HGET st target_key k
           end.
Proof.
  intros Hne Hsrc Htgt.
  destruct (build_target_map_run (HGETALL st target_key)) with (target_map := (∅ : gmap string json)) (st := st)
    as (tm & Hbuild & Htm).
  { apply NoDup_fst_map_to_list. }
  { intros k raw Hin. apply elem_of_map_to_list in Hin. by apply (Htgt k). }
  assert (Htm' : ∀ k, tm !! k = HGET st target_key k ≫= decode).
  { intros k. rewrite Htm. unfold HGETALL. rewrite list_to_map_to_list.
    unfold HGET. destruct (hash_fields st target_key !! k); [done|].
    by rewrite lookup_empty. }
  destruct (merge_loop_run conflict_resolution target_key tm (HGETALL st source_key))
    with (merged_count := 0) (conflict_count := 0) (st := st)
    as (st1 & Hloop & Hother & _ & Hex & Hlook).
  { apply NoDup_fst_map_to_list. }
  { intros k raw Hin. apply elem_of_map_to_list in Hin. by apply (Hsrc k). }
  { intros k data Hk. rewrite Htm' in Hk.
    destruct (HGET st target_key k) as [raw|] eqn:E; [|done].
    destruct (Htgt _ _ E) as [members ->]. simpl in Hk. injection Hk as <-. eauto. }
  assert (Hnil : HGETALL st source_key ≠ []).
  { unfold HGETALL. by rewrite map_to_list_empty_iff. }
  assert (Hmerged : 0 + Z.of_nat (length (HGETALL st source_key)) = HLEN st source_key).
  { unfold HLEN, HGETALL. rewrite length_map_to_list. lia. }
  assert (Hconflicts :
    0 + Z.of_nat (length (conflicts_in tm (HGETALL st source_key)))
    = Z.of_nat (size (dom (hash_fields st source_key) ∩ dom (hash_fields st target_key)))).
  { unfold HGETALL.
    rewrite (conflicts_in_size _ (hash_fields st target_key)); [lia|].
    intros k. rewrite Htm'. unfold HGET.
    destruct (hash_fields st target_key !! k) as [raw|] eqn:E;
      [|simpl; split; by intros [? ?]].
    destruct (Htgt k raw E) as [members ->]. simpl. split; eauto. }
  rewrite Hmerged, Hconflicts in Hloop.
  exists st1. split; [|split; [done|split; [by apply Hex|]]].
  - unfold MERGE_CART_SCRIPT. unfold bind at 1. unfold query at 1.
    destruct (HGETALL st source_key) as [|entry rest] eqn:Hall; [done|].
    change ((length (entry :: rest) =? 0)%nat) with false. cbv iota.
    unfold bind at 1. unfold query at 1.
    unfold bind at 1. rewrite Hbuild. unfold bind at 1. rewrite Hloop.
    unfold bind, query, update, command, ret. simpl fst. simpl snd.
    assert (EXISTS st1 target_key = true) as -> by (by apply EXISTS_true, Hex).
    by destruct (DEL (EXPIRE st1 target_key ttl) source_key) as [n st2] eqn:Hdel.
  - intros k. rewrite Hlook. unfold HGETALL. rewrite list_to_map_to_list.
    unfold HGET at 2. rewrite Htm'. done.
Qed.

Lemma well_formed_cart_item st cart_key k raw :
  well_formed_cart st cart_key → HGET st cart_key k = Some raw → is_Some (item_view raw).
Proof. intros H Hget. exact (map_Forall_lookup_1 _ _ _ _ H Hget). Qed.

Lemma well_formed_cart_object st cart_key k raw :
  well_formed_cart st cart_key → HGET st cart_key k = Some raw → is_object raw.
Proof. intros H Hget. eapply item_view_is_object, well_formed_cart_item; eauto. Qed.

Lemma merge_write_absent conflict_resolution raw :
  merge_write conflict_resolution None raw = raw.
Proof. reflexivity. Qed.

Lemma merge_write_items conflict_resolution sraw traw sq sp sv tq tp tv :
  item_view sraw = Some (sq, sp, sv) → item_view traw = Some (tq, tp, tv) →
  merge_write conflict_resolution (decode traw) sraw
  = if String.eqb conflict_resolution "sum" then item_payload (sq + tq) sp sv else sraw.
Proof.
  intros Hs Ht.
  destruct (item_view_inv _ _ _ _ Hs) as (smem & -> & Hsq & Hsp & Hsv).
  destruct (item_view_inv _ _ _ _ Ht) as (tmem & -> & Htq & Htp & Htv).
  unfold merge_write, field_of. simpl. rewrite Hsq, Hsp, Hsv, Htq. reflexivity.
Qed.





(** ** Reading a cart *)

Lemma fix_context_small d : Z.abs (coef d) < 10 ^ prec → fix_context d = d.
Proof. intros H. unfold fix_context. by rewrite (proj2 (Z.ltb_lt _ _) H). Qed.

Lemma pow10_pos n : 0 ≤ n → 1 ≤ 10 ^ n.
Proof. intros H. pose proof (Z.pow_pos_nonneg 10 n). lia. Qed.

Lemma abs_le_scaled k c e : 0 ≤ e + k → Z.abs c ≤ Z.abs (c * 10 ^ (e + k)).
Proof.
  intros H. rewrite Z.abs_mul. pose proof (pow10_pos _ H).
  rewrite (Z.abs_eq (10 ^ (e + k))) by lia. nia.
Qed.

(** A product that fits the precision is exact. *)
Lemma Decimal_mul_int_exact k a n :
  - k ≤ expo a → 0 ≤ n → n * Z.abs (scaled k a) < 10 ^ prec →
  Decimal_mul_int a n = mk_Decimal (coef a * n) (expo a).
Proof.
  intros Hk Hn Hfit. unfold Decimal_mul_int. apply fix_context_small. simpl.
  pose proof (abs_le_scaled k (coef a) (expo a)) as Habs. unfold scaled in Hfit.
  rewrite Z.abs_mul, (Z.abs_eq n) by done. nia.
Qed.

(** A sum that fits the precision is exact, and stays on the scale. *)
Lemma Decimal_add_exact k a b :
  - k ≤ expo a → - k ≤ expo b →
  Z.abs (scaled k a) + Z.abs (scaled k b) < 10 ^ prec →
  let s := Decimal_add a b in
  - k ≤ expo s ∧ scaled k s = scaled k a + scaled k b.
Proof.
  intros Ha Hb Hfit. unfold Decimal_add. set (e := Z.min (expo a) (expo b)).
  assert (He : - k ≤ e) by (unfold e; lia).
  assert (Hscale : (coef a * 10 ^ (expo a - e) + coef b * 10 ^ (expo b - e)) * 10 ^ (e + k)
                   = scaled k a + scaled k b).
  { unfold scaled. rewrite Z.mul_add_distr_r, <- !Z.mul_assoc, <- !Z.pow_add_r
      by (unfold e; lia).
    by replace (expo a - e + (e + k)) with (expo a + k) by lia;
       replace (expo b - e + (e + k)) with (expo b + k) by lia. }
  rewrite fix_context_small.
  - simpl. split; [done|]. exact Hscale.
  - simpl. pose proof (abs_le_scaled k
      (coef a * 10 ^ (expo a - e) + coef b * 10 ^ (expo b - e)) e) as Habs.
    rewrite Hscale in Habs. lia.
Qed.

Lemma parse_item_quantity_nonneg k raw item :
  parse_item k raw = Done item → 0 ≤ quantity item.
Proof.
  unfold parse_item. destruct (decode raw) as [[| | | | |members]|]; try discriminate.
  destruct (assoc "quantity" members) as [q|]; [|discriminate].
  destruct (assoc "price_snapshot" members) as [p|]; [|discriminate].
  destruct (Decimal_of_json p); [|discriminate].
  destruct (validate_quantity q) as [n|] eqn:Hq; [|discriminate].
  destruct (validate_variant _); [|discriminate].
  intros [= <-]. simpl. unfold validate_quantity in Hq.
  destruct (match q with JInt n0 => Some n0 | JBool b => _ | JStr s => _ | _ => None end)
    as [m|]; simpl in Hq; [|discriminate].
  destruct (Z.ltb_spec m 0); [discriminate|]. by injection Hq as <-.
Qed.

Lemma entry_items_cons k raw rest item :
  parse_item k raw = Done item →
  entry_items ((k, raw) :: rest) = item :: entry_items rest.
Proof. intros H. unfold entry_items. simpl. by rewrite H. Qed.

Lemma entry_items_quantity_nonneg entries :
  Forall (λ item, 0 ≤ quantity item) (entry_items entries).
Proof.
  induction entries as [|[k raw] rest IH]; [constructor|].
  unfold entry_items. simpl.
  destruct (parse_item k raw) as [item|e] eqn:Hitem; [|exact IH].
  constructor; [|exact IH]. by eapply parse_item_quantity_nonneg.
Qed.

Lemma Zsum_cons x l : Zsum (x :: l) = x + Zsum l.
Proof. reflexivity. Qed.

Lemma Zsum_abs_lines_nonneg k (l : list CartItem) :
  Forall (λ item, 0 ≤ quantity item) l →
  0 ≤ Zsum ((λ item, quantity item * Z.abs (scaled k (price_snapshot item))) <$> l).
Proof.
  induction 1 as [|item l Hq _ IH]; [simpl; lia|].
  rewrite fmap_cons, Zsum_cons.
  pose proof (Z.abs_nonneg (scaled k (price_snapshot item))). nia.
Qed.

(** The loop of [get_cart] on entries that all parse: the item count is the
    sum of the quantities, and the price total is the exact sum as long as
    it fits the precision. *)
Lemma get_cart_loop_run entries :
  Forall (λ kv, ∃ item, parse_item kv.1 kv.2 = Done item) entries →
  ∀ items total_price total_items, ∃ items' total_price',
    get_cart_loop entries items total_price total_items
    = Done (items', total_price',
            total_items + Zsum (quantity <$> entry_items entries)) ∧
    ∀ k, 0 ≤ k → - k ≤ expo total_price →
      Forall (λ item, - k ≤ expo (price_snapshot item)) (entry_items entries) →
      Z.abs (scaled k total_price)
      + Zsum ((λ item, quantity item * Z.abs (scaled k (price_snapshot item)))
                <$> entry_items entries) < 10 ^ prec →
      - k ≤ expo total_price' ∧
      scaled k total_price'
      = scaled k total_price
        + Zsum ((λ item, quantity item * scaled k (price_snapshot item))
                  <$> entry_items entries).
Proof.
  induction 1 as [|[k0 raw0] rest [item Hitem] Hrest IH];
    intros items0 total_price0 total_items0.
  - exists items0, total_price0. simpl. rewrite Z.add_0_r. split; [done|].
    intros k _ Hk _ _. split; [done|lia].
  - simpl in Hitem. simpl get_cart_loop. rewrite Hitem.
    rewrite (entry_items_cons _ _ _ _ Hitem).
    pose proof (parse_item_quantity_nonneg _ _ _ Hitem) as Hq.
    match goal with
    | |- context [get_cart_loop rest ?i ?p ?t] =>
        destruct (IH i p t) as (items' & total_price' & Hrun & Hexact)
    end.
    exists items', total_price'. split.
    + rewrite Hrun. rewrite fmap_cons, Zsum_cons. by rewrite Z.add_assoc.
    + intros k Hk0 Hk Hexp Hfit. rewrite !fmap_cons, !Zsum_cons in *.
      apply Forall_cons in Hexp as [Hexp0 Hexp].
      set (rest_abs := Zsum ((λ it, quantity it * Z.abs (scaled k (price_snapshot it)))
                               <$> entry_items rest)) in *.
      assert (Hrest_nonneg : 0 ≤ rest_abs)
        by apply Zsum_abs_lines_nonneg, entry_items_quantity_nonneg.
      pose proof (Z.abs_nonneg (scaled k total_price0)) as Htp_nonneg.
      pose proof (Z.abs_nonneg (scaled k (price_snapshot item))) as Hp_nonneg.
      assert (Hmul : Decimal_mul_int (price_snapshot item) (quantity item)
                     = mk_Decimal (coef (price_snapshot item) * quantity item)
                         (expo (price_snapshot item))).
      { apply (Decimal_mul_int_exact k); [done..|]. nia. }
      assert (Hline : scaled k (Decimal_mul_int (price_snapshot item) (quantity item))
                      = quantity item * scaled k (price_snapshot item)).
      { rewrite Hmul. unfold scaled. simpl. lia. }
      destruct (Decimal_add_exact k total_price0
                  (Decimal_mul_int (price_snapshot item) (quantity item)))
        as [Hexp_s Hs]; [done| by rewrite Hmul | |].
      { rewrite Hline, Z.abs_mul, (Z.abs_eq (quantity item)) by done. nia. }
      destruct (Hexact k Hk0 Hexp_s Hexp) as [Hexp' Hval].
      { rewrite Hs, Hline.
        pose proof (Z.abs_triangle (scaled k total_price0)
                      (quantity item * scaled k (price_snapshot item))) as Htri.
        rewrite (Z.abs_mul (quantity item)), (Z.abs_eq (quantity item)) in Htri by done.
        lia. }
      split; [done|]. rewrite Hval, Hs, Hline. lia.
Qed.

Lemma scaled_zero k : scaled k (mk_Decimal 0 0) = 0.
Proof. unfold scaled. simpl coef. lia. Qed.



(** C7 fails on the code: an entry whose price is no number stops the read.
    [Decimal("abc")] raises [InvalidOperation], which the [except] clause of
    the loop does not name, so the error leaves [get_cart] although the other
    entry of the cart is well formed. *)
Lemma get_cart_unparsable_price_raises :
  let st : store :=
    HSET (HSET ∅ "cart:c" "A" (item_payload 2 "19.99" "")) "cart:c" "B"
      (item_payload 1 "abc" "") in
  parse_item "A" (item_payload 2 "19.99" "")
  = Done (mk_CartItem "A" 2 (mk_Decimal 1999 (-2)) (Some "")) ∧
  parse_item "B" (item_payload 1 "abc" "") = Failed (PyError "InvalidOperation") ∧
  CartService.get_cart "c" st = (st, Failed (PyError "InvalidOperation")).
Proof. by vm_compute. Qed.

(** What the loop does skip: an entry that is no JSON, or an object without
    [quantity] or [price_snapshot]. *)
Lemma get_cart_loop_skips k raw rest items total_price total_items e :
  parse_item k raw = Failed e → caught e = true →
  get_cart_loop ((k, raw) :: rest) items total_price total_items
  = get_cart_loop rest items total_price total_items.
Proof. intros Hp Hc. simpl. by rewrite Hp, Hc. Qed.

(** ** The retry loop *)

Section RetryFacts.
Import RedisClient.
Context {A cause : Type}.
Implicit Types (func : nat → @attempt A cause) (draw : nat → Q).

(** A call that returns ends the loop with its value. *)
Lemma retry_first_call_returns func draw v :
  func 0%nat = Returns v →
  _retry_with_backoff func draw default_max_retries default_initial_backoff
    default_max_backoff
  = ([Call 0], Value v).
Proof. intros H. unfold _retry_with_backoff. simpl. by rewrite H. Qed.

(** An error that is not transient is raised at once, without a retry. *)
Lemma retry_other_error_raises func draw e :
  func 0%nat = RaisesRedisError e →
  _retry_with_backoff func draw default_max_retries default_initial_backoff
    default_max_backoff
  = ([Call 0], Raised (RedisErrorWrapped e)).
Proof. intros H. unfold _retry_with_backoff. simpl. by rewrite H. Qed.

(** Whatever the budget, when every call raises a transient error the loop
    ends by raising the error of the last call. *)
Lemma retry_rounds_all_transient func draw (e : nat → cause) max_retries max_backoff :
  (∀ n, (n < max_retries)%nat → func n = RaisesTransient (e n)) →
  ∀ rounds_left attempt_no backoff,
    (0 < rounds_left)%nat → (attempt_no + rounds_left = max_retries)%nat →
    (retry_rounds func draw max_retries max_backoff rounds_left attempt_no backoff).2
    = Raised (OperationFailedAfter max_retries (e (max_retries - 1)%nat)).
Proof.
  intros Hfunc. induction rounds_left as [|rounds_left IH];
    intros attempt_no backoff Hpos Hsum; [lia|].
  simpl. rewrite Hfunc by lia.
  destruct (Nat.eqb_spec attempt_no (max_retries - 1)) as [->|Hne]; [done|].
  specialize (IH (S attempt_no) (Qmin (backoff * 2) max_backoff)).
  destruct (retry_rounds _ _ _ _ rounds_left _ _) as [events r]. simpl in *.
  apply IH; lia.
Qed.

(** C9.  With the defaults (3 attempts, first delay 0.1 s, largest delay
    2 s), when each of the three calls raises a transient error the loop calls
    three times, sleeps and reconnects between the calls, and raises one
    [RedisConnectionError], which carries the error of the last call.  The
    first delay is between 0.1 and 0.11 seconds, the second between 0.2 and
    0.22 seconds: the base doubles, the jitter adds at most a tenth, and both
    delays stay under the largest delay. *)
Theorem retry_exhausted_raises_once func draw e0 e1 e2 :
  func 0%nat = RaisesTransient e0 →
  func 1%nat = RaisesTransient e1 →
  func 2%nat = RaisesTransient e2 →
  (∀ n, 0 <= draw n ∧ draw n <= 1)%Q →
  ∃ d1 d2,
    _retry_with_backoff func draw default_max_retries default_initial_backoff
      default_max_backoff
    = ([Call 0; Sleep d1; Reconnect; Call 1; Sleep d2; Reconnect; Call 2],
       Raised (OperationFailedAfter 3 e2)) ∧
    (1 # 10 <= d1 ∧ d1 <= 11 # 100)%Q ∧
    (2 # 10 <= d2 ∧ d2 <= 22 # 100)%Q ∧
    (d1 < d2)%Q ∧
    (d2 <= default_max_backoff)%Q.
Proof.
  intros H0 H1 H2 Hdraw.
  unfold _retry_with_backoff, default_max_retries, default_initial_backoff,
    default_max_backoff.
  simpl retry_rounds. rewrite H0. simpl Nat.eqb. cbv iota.
  rewrite H1. simpl Nat.eqb. cbv iota. rewrite H2. simpl Nat.eqb. cbv iota.
  change (Qmin ((1 # 10) * 2) 2) with ((1 # 10) * 2)%Q.
  do 2 eexists. split; [reflexivity|].
  pose proof (Hdraw 0%nat) as [? ?]. pose proof (Hdraw 1%nat) as [? ?].
  unfold uniform. repeat split; lra.
Qed.

End RetryFacts.

(** ** The statements at concrete carts *)

Lemma within_limits_empty max_items max_quantity :
  0 ≤ max_items → within_limits max_items max_quantity ∅.
Proof.
  intros H key. unfold HLEN, HGET, hash_fields. rewrite lookup_empty. split.
  - by rewrite map_size_empty.
  - intros ???. by rewrite lookup_empty.
Qed.

Lemma no_empty_hash_empty : no_empty_hash ∅.
Proof. intros key h. by rewrite lookup_empty. Qed.



Lemma update_quantity_script_effect_witness :
  HGET cart_AB "cart:c" "A" = Some (item_payload 2 "10" "") ∧
  item_view (item_payload 2 "10" "") = Some (2, "10", "") ∧
  (let run := UPDATE_QUANTITY_SCRIPT "cart:c" "A" 7 99 86400 cart_AB in
   ∃ raw', HGET run.1 "cart:c" "A" = Some raw' ∧ item_view raw' = Some (7, "10", "")).
Proof.
  split; [reflexivity|]. split; [reflexivity|].
  pose proof (update_quantity_script_effect cart_AB "cart:c" "A" 7 99 86400
                (item_payload 2 "10" "") 2 "10" "" eq_refl eq_refl) as H.
  cbv zeta in H. destruct H as (_ & _ & _ & H); [lia | lia |].
  destruct H as (_ & Hentry & _); [lia | exact Hentry].
Defined.


Lemma mutations_leave_no_empty_hash_witness :
  no_empty_hash cart_AB ∧
  no_empty_hash
    (CartService.update_quantity default_config "c" "A" 0 false cart_AB).1 ∧
  no_empty_hash (CartService.remove_item default_config "c" "B" false cart_AB).1.
Proof.
  assert (H : no_empty_hash cart_AB)
    by (do 2 apply no_empty_hash_HSET; apply no_empty_hash_empty).
  split; [exact H|].
  destruct (mutations_leave_no_empty_hash default_config cart_AB H)
    as (_ & Hupdate & Hremove & _).
  split; [apply Hupdate | apply Hremove].
Defined.



Lemma retry_exhausted_raises_once_witness :
  let func : nat → RedisClient.attempt (A:=unit) :=
    λ n, RedisClient.RaisesTransient
           (match n with
            | O => "connection refused"
            | S O => "connection reset"
            | _ => "timed out"
            end) in
  let draw : nat → Q := λ _, 1 # 2 in
  (∀ n, 0 <= draw n ∧ draw n <= 1)%Q ∧
  (RedisClient._retry_with_backoff func draw RedisClient.default_max_retries
     RedisClient.default_initial_backoff RedisClient.default_max_backoff).2
  = RedisClient.Raised (RedisClient.OperationFailedAfter 3 "timed out").
Proof.
  intros func draw.
  assert (Hdraw : ∀ n, (0 <= draw n ∧ draw n <= 1)%Q).
  { intros n. unfold draw. split; discriminate. }
  split; [exact Hdraw|].
  destruct (retry_exhausted_raises_once func draw _ _ _ eq_refl eq_refl eq_refl Hdraw)
    as (d1 & d2 & Hrun & _).
  rewrite Hrun. reflexivity.
Defined.


(** * Further properties *)

(** ** The retry loop, for any budget *)

Section RetryBudget.
Import RedisClient.
Context {A cause : Type}.
Implicit Types (func : nat → @attempt A cause) (draw : nat → Q).

Lemma retry_rounds_S func draw max_retries max_backoff rounds_left attempt_no backoff :
  retry_rounds func draw max_retries max_backoff (S rounds_left) attempt_no backoff
  = match func attempt_no with
    | Returns v => ([Call attempt_no], Value v)
    | RaisesTransient e =>
        if (attempt_no =? max_retries - 1)%nat then
          ([Call attempt_no], Raised (OperationFailedAfter max_retries e))
        else
          let next := retry_rounds func draw max_retries max_backoff rounds_left
                        (S attempt_no) (Qmin (backoff * 2) max_backoff) in
          (Call attempt_no
           :: Sleep (backoff + uniform 0 (backoff * (1 # 10)) (draw attempt_no))
           :: Reconnect :: next.1, next.2)
    | RaisesRedisError e => ([Call attempt_no], Raised (RedisErrorWrapped e))
    end.
Proof.
  simpl. destruct (func attempt_no); try done.
  destruct (attempt_no =? max_retries - 1)%nat; [done|].
  by destruct (retry_rounds _ _ _ _ rounds_left _ _).
Qed.

Lemma trace_round a d (events : list event) :
  calls (Call a :: Sleep d :: Reconnect :: events) = a :: calls events ∧
  sleeps (Call a :: Sleep d :: Reconnect :: events) = d :: sleeps events ∧
  reconnects (Call a :: Sleep d :: Reconnect :: events) = S (reconnects events).
Proof. done. Qed.

(** The rounds called are consecutive, at most as many as are left, and
    there is one sleep and one reconnection between two calls. *)
Lemma retry_rounds_shape func draw max_retries max_backoff rounds_left :
  ∀ attempt_no backoff,
    (attempt_no + rounds_left = max_retries)%nat →
    let run := retry_rounds func draw max_retries max_backoff rounds_left
                 attempt_no backoff in
    ∃ n, (n ≤ rounds_left)%nat ∧ (0 < rounds_left → 0 < n)%nat ∧
         calls run.1 = seq attempt_no n ∧
         length (sleeps run.1) = (n - 1)%nat ∧
         reconnects run.1 = (n - 1)%nat.
Proof.
  induction rounds_left as [|rounds_left IH]; intros attempt_no backoff Hsum.
  - exists 0%nat. simpl. repeat split; lia.
  - cbv zeta. rewrite retry_rounds_S. destruct (func attempt_no) as [v|e|e].
    + exists 1%nat. simpl. repeat split; lia.
    + destruct (Nat.eqb_spec attempt_no (max_retries - 1)) as [Hlast|Hmore].
      * exists 1%nat. simpl. repeat split; lia.
      * destruct (IH (S attempt_no) (Qmin (backoff * 2) max_backoff) ltac:(lia))
          as (n & Hn & Hpos & Hcalls & Hsleeps & Hrec).
        exists (S n). cbn [fst snd].
        match goal with
        | |- context [Call ?a :: Sleep ?d :: Reconnect :: ?ev] =>
            destruct (trace_round a d ev) as (-> & -> & ->)
        end.
        rewrite Hcalls, Hrec. simpl length. rewrite Hsleeps.
        repeat split; first [lia | done].
    + exists 1%nat. simpl. repeat split; lia.
Qed.

(** X1.  Whatever the budget and however the calls end,
    [_retry_with_backoff] calls the operation in rounds 0, 1, ... without a
    gap, at most [max_retries] times, and sleeps and reconnects exactly once
    between two calls, never after the last one. *)
Theorem retry_stays_within_budget func draw max_retries initial_backoff max_backoff :
  let run := _retry_with_backoff func draw max_retries initial_backoff max_backoff in
  ∃ n, (n ≤ max_retries)%nat ∧
       calls run.1 = seq 0 n ∧
       length (sleeps run.1) = (n - 1)%nat ∧
       reconnects run.1 = (n - 1)%nat ∧
       (n = 0%nat ↔ max_retries = 0%nat).
Proof.
  unfold _retry_with_backoff.
  destruct (retry_rounds_shape func draw max_retries max_backoff max_retries 0
              initial_backoff eq_refl) as (n & Hn & Hpos & Hcalls & Hsleeps & Hrec).
  exists n. repeat split; try done; lia.
Qed.

(** The loop from a round on, when the calls before round [k] raise
    transient errors and the call of round [k] does not. *)
Lemma retry_rounds_until func draw max_retries max_backoff (k : nat) :
  (∀ n, (n < k)%nat → ∃ e, func n = RaisesTransient e) →
  (∀ e, func k ≠ RaisesTransient e) →
  ∀ rounds_left attempt_no backoff,
    (attempt_no ≤ k)%nat → (k < attempt_no + rounds_left)%nat →
    (attempt_no + rounds_left = max_retries)%nat →
    let run := retry_rounds func draw max_retries max_backoff rounds_left
                 attempt_no backoff in
    calls run.1 = seq attempt_no (S k - attempt_no) ∧
    (∀ v, func k = Returns v → run.2 = Value v) ∧
    (∀ e, func k = RaisesRedisError e → run.2 = Raised (RedisErrorWrapped e)).
Proof.
  intros Hbefore Hk. induction rounds_left as [|rounds_left IH];
    intros attempt_no backoff Hle Hlt Hsum; [lia|].
  cbv zeta. rewrite retry_rounds_S. destruct (decide (attempt_no = k)) as [->|Hne].
  - replace (S k - k)%nat with 1%nat by lia.
    destruct (func k) as [v|e|e] eqn:Hfk.
    + simpl. repeat split; [by intros ? [= ->] | done].
    + by destruct (Hk e).
    + simpl. repeat split; [done | by intros ? [= ->]].
  - destruct (Hbefore attempt_no ltac:(lia)) as [e ->].
    destruct (Nat.eqb_spec attempt_no (max_retries - 1)) as [Hlast|Hmore]; [lia|].
    destruct (IH (S attempt_no) (Qmin (backoff * 2) max_backoff)
                ltac:(lia) ltac:(lia) ltac:(lia)) as (Hcalls & Hv & He).
    cbn [fst snd].
    match goal with
    | |- context [Call ?a :: Sleep ?d :: Reconnect :: ?ev] =>
        destruct (trace_round a d ev) as (-> & _ & _)
    end.
    rewrite Hcalls. split; [|done].
    replace (S k - attempt_no)%nat with (S (S k - S attempt_no)) by lia. done.
Qed.

(** X2.  The loop stops at the first call that does not raise a transient
    error: when rounds 0 to [k - 1] raise transient errors and round [k],
    within the budget, returns a value or raises another cache error, the
    operation is called [k + 1] times and the loop returns that value, or
    raises [RedisConnectionError] for that error, at once. *)
Theorem retry_stops_at_first_settled_call func draw max_retries initial_backoff
    max_backoff (k : nat) :
  (k < max_retries)%nat →
  (∀ n, (n < k)%nat → ∃ e, func n = RaisesTransient e) →
  (∀ e, func k ≠ RaisesTransient e) →
  let run := _retry_with_backoff func draw max_retries initial_backoff max_backoff in
  calls run.1 = seq 0 (S k) ∧
  (∀ v, func k = Returns v → run.2 = Value v) ∧
  (∀ e, func k = RaisesRedisError e → run.2 = Raised (RedisErrorWrapped e)).
Proof.
  intros Hk Hbefore Hsettled. unfold _retry_with_backoff.
  destruct (retry_rounds_until func draw max_retries max_backoff k Hbefore Hsettled
              max_retries 0%nat initial_backoff) as (Hcalls & Hv & He); [lia..|].
  rewrite Nat.sub_0_r in Hcalls. done.
Qed.

(** Every delay is the base delay of its round plus a jitter of at most a
    tenth of it, and the base delays stay at or below the larger of the
    first and the largest delay. *)
Lemma retry_rounds_delays func draw max_retries max_backoff (bound : Q) :
  (∀ n, 0 <= draw n ∧ draw n <= 1)%Q →
  (max_backoff <= bound)%Q → (0 <= max_backoff)%Q →
  ∀ rounds_left attempt_no backoff,
    (0 <= backoff)%Q → (backoff <= bound)%Q →
    Forall (λ d, 0 <= d ∧ d <= (11 # 10) * bound)%Q
      (sleeps (retry_rounds func draw max_retries max_backoff rounds_left
                 attempt_no backoff).1).
Proof.
  intros Hdraw Hmax Hmax0. induction rounds_left as [|rounds_left IH];
    intros attempt_no backoff Hb0 Hb; [constructor|].
  rewrite retry_rounds_S.
  destruct (func attempt_no) as [v|e|e]; [constructor| |constructor].
  destruct (attempt_no =? max_retries - 1)%nat; [constructor|].
  cbn [fst snd].
  match goal with
  | |- context [Call ?a :: Sleep ?d :: Reconnect :: ?ev] =>
      destruct (trace_round a d ev) as (_ & -> & _)
  end.
  constructor.
  - destruct (Hdraw attempt_no) as [Hu0 Hu1]. unfold uniform.
    split; nra.
  - apply IH.
    + apply Q.min_glb; lra.
    + apply (Qle_trans _ max_backoff); [apply Q.le_min_r | done].
Qed.

(** X3.  With draws of the unit interval and delays that are not negative,
    no delay the loop sleeps is negative or longer than eleven tenths of the
    larger of [initial_backoff] and [max_backoff]: the jitter comes on top of
    the cap. *)
Theorem retry_delays_bounded func draw max_retries initial_backoff max_backoff :
  (∀ n, 0 <= draw n ∧ draw n <= 1)%Q →
  (0 <= initial_backoff)%Q → (0 <= max_backoff)%Q →
  Forall (λ d, 0 <= d ∧ d <= (11 # 10) * Qmax initial_backoff max_backoff)%Q
    (sleeps (_retry_with_backoff func draw max_retries initial_backoff max_backoff).1).
Proof.
  intros Hdraw Hi Hm. unfold _retry_with_backoff.
  apply retry_rounds_delays; try done.
  - apply Q.le_max_r.
  - apply Q.le_max_l.
Qed.

End RetryBudget.

(** ** One cart at a time *)

Lemma _get_cart_key_inj a b :
  CartService._get_cart_key a = CartService._get_cart_key b → a = b.
Proof. unfold CartService._get_cart_key. simpl. intros H. by injection H. Qed.

(** Keeping the entry under one key, for the commands on another key. *)
Section OtherKey.
Context (key : string) (h : option rhash).
Local Abbreviation kept := (key_holds key h).

Lemma kept_HSET st k field v : k ≠ key → kept st → kept (HSET st k field v).
Proof. unfold kept. intros Hne <-. by apply lookup_HSET_ne. Qed.

Lemma kept_EXPIRE st k seconds : k ≠ key → kept st → kept (EXPIRE st k seconds).
Proof. unfold kept. intros Hne <-. by apply lookup_EXPIRE_ne. Qed.

Lemma kept_DEL st k : k ≠ key → kept st → kept (DEL st k).2.
Proof. unfold kept. intros Hne <-. rewrite lookup_DEL. by rewrite decide_False. Qed.

Lemma kept_HDEL st k field : k ≠ key → kept st → kept (HDEL st k field).2.
Proof. unfold kept. intros Hne <-. by apply lookup_HDEL_ne. Qed.

Lemma ADD_ITEM_SCRIPT_kept k product_id quantity price variant max_items max_quantity ttl :
  k ≠ key →
  preserves kept
    (ADD_ITEM_SCRIPT k product_id quantity price variant max_items max_quantity ttl).
Proof.
  intros Hne. unfold ADD_ITEM_SCRIPT. step_preserves; apply preserves_update; intros.
  - by apply kept_HSET.
  - by apply kept_EXPIRE.
Qed.

Lemma UPDATE_QUANTITY_SCRIPT_kept k product_id quantity max_quantity ttl :
  k ≠ key →
  preserves kept (UPDATE_QUANTITY_SCRIPT k product_id quantity max_quantity ttl).
Proof.
  intros Hne. unfold UPDATE_QUANTITY_SCRIPT. step_preserves.
  - apply preserves_bind; [apply preserves_command; intros; by apply kept_HDEL|].
    intros _. step_preserves.
    + apply preserves_update. intros. by apply kept_EXPIRE.
    + apply preserves_bind; [|intros; apply preserves_ret].
      apply preserves_command. intros. by apply kept_DEL.
  - apply preserves_update. intros. by apply kept_HSET.
  - apply preserves_update. intros. by apply kept_EXPIRE.
Qed.

Lemma MERGE_CART_SCRIPT_kept source_key target_key conflict_resolution ttl :
  source_key ≠ key → target_key ≠ key →
  preserves kept (MERGE_CART_SCRIPT source_key target_key conflict_resolution ttl).
Proof.
  intros Hs Ht. unfold MERGE_CART_SCRIPT. step_preserves.
  - apply preserves_build_target_map.
  - apply preserves_merge_loop. intros. by apply kept_HSET.
  - apply preserves_update. intros. by apply kept_EXPIRE.
  - apply preserves_bind; [|intros; apply preserves_ret].
    apply preserves_command. intros. by apply kept_DEL.
Qed.

End OtherKey.

(** [get_cart] as a function of the hash under the cart's key. *)
Lemma get_cart_unfold cart st :
  CartService.get_cart cart st
  = (st,
     match st !! CartService._get_cart_key cart with
     | None => Failed (CartNotFoundError cart)
     | Some h =>
         match map_to_list (fields h) with
         | [] => Done (mk_CartResponse cart ∅ 0 (mk_Decimal 0 0))
         | entry :: rest =>
             match get_cart_loop (entry :: rest) ∅ (mk_Decimal 0 0) 0 with
             | Done (items, total_price, total_items) =>
                 Done (mk_CartResponse cart items total_items total_price)
             | Failed e => Failed e
             end
         end
     end).
Proof.
  unfold CartService.get_cart, bind, query, EXISTS, HGETALL, hash_fields.
  destruct (st !! CartService._get_cart_key cart) as [h|] eqn:E.
  - rewrite bool_decide_true by eauto. cbn [negb]. cbv beta. rewrite E.
    destruct (map_to_list (fields h)) as [|entry rest]; [done|].
    by destruct (get_cart_loop (entry :: rest) _ _ _) as [[[? ?] ?]|?].
  - rewrite bool_decide_false by (by intros [? ?]). done.
Qed.

(** What [get_cart] reports only depends on the hash under the cart's key. *)
Lemma get_cart_ext cart st st' :
  st' !! CartService._get_cart_key cart = st !! CartService._get_cart_key cart →
  (CartService.get_cart cart st').2 = (CartService.get_cart cart st).2.
Proof. intros Heq. rewrite !get_cart_unfold. simpl. by rewrite Heq. Qed.

(** [get_cart] changes nothing. *)
Lemma get_cart_reads_only cart st : (CartService.get_cart cart st).1 = st.
Proof. by rewrite get_cart_unfold. Qed.

(** X4.  A mutation of one cart never changes what [get_cart] reports for
    another cart: after [add_item], [update_quantity], [remove_item] or
    [clear_cart] on a cart, and after [merge_carts] of a source into a target,
    [get_cart] of any cart other than those answers as before, however the
    mutation ended. *)
Theorem mutations_leave_other_carts cfg st other :
  (∀ cart product q price variant is_guest,
     cart ≠ other →
     (CartService.get_cart other
        (CartService.add_item cfg cart product q price variant is_guest st).1).2
     = (CartService.get_cart other st).2) ∧
  (∀ cart product q is_guest,
     cart ≠ other →
     (CartService.get_cart other
        (CartService.update_quantity cfg cart product q is_guest st).1).2
     = (CartService.get_cart other st).2) ∧
  (∀ cart product is_guest,
     cart ≠ other →
     (CartService.get_cart other
        (CartService.remove_item cfg cart product is_guest st).1).2
     = (CartService.get_cart other st).2) ∧
  (∀ cart,
     cart ≠ other →
     (CartService.get_cart other (CartService.clear_cart cart st).1).2
     = (CartService.get_cart other st).2) ∧
  (∀ source target conflict_resolution is_guest,
     source ≠ other → target ≠ other →
     (CartService.get_cart other
        (CartService.merge_carts cfg source target conflict_resolution is_guest st).1).2
     = (CartService.get_cart other st).2).
Proof.
  assert (Hkey : ∀ cart, cart ≠ other →
            CartService._get_cart_key cart ≠ CartService._get_cart_key other).
  { intros cart Hne Heq. by apply Hne, _get_cart_key_inj. }
  set (key := CartService._get_cart_key other).
  split; [|split; [|split; [|split]]]; intros;
    apply get_cart_ext;
    apply (preserves_run (λ st', st' !! key = st !! key)); try done.
  - unfold CartService.add_item, AtomicScripts.add_item. step_preserves.
    by apply ADD_ITEM_SCRIPT_kept, Hkey.
  - unfold CartService.update_quantity, AtomicScripts.update_quantity. step_preserves.
    by apply UPDATE_QUANTITY_SCRIPT_kept, Hkey.
  - unfold CartService.remove_item. cbv zeta.
    apply preserves_bind; [apply preserves_command; intros; apply kept_HDEL; [by apply Hkey|done]|].
    intros ?. step_preserves.
    + apply preserves_update. intros. apply kept_EXPIRE; [by apply Hkey|done].
    + apply preserves_bind; [|intros; apply preserves_ret].
      apply preserves_command. intros. apply kept_DEL; [by apply Hkey|done].
  - unfold CartService.clear_cart. cbv zeta.
    apply preserves_bind; [|intros; apply preserves_ret].
    apply preserves_command. intros. apply kept_DEL; [by apply Hkey|done].
  - unfold CartService.merge_carts, AtomicScripts.merge_cart. step_preserves.
    apply MERGE_CART_SCRIPT_kept; by apply Hkey.
Qed.

(** ** Removing an item and clearing a cart *)

Lemma HDEL_absent st key field :
  HGET st key field = None → HDEL st key field = (0, st).
Proof.
  unfold HGET, hash_fields, HDEL. destruct (st !! key) as [h|]; [|done].
  by intros ->.
Qed.

Lemma HDEL_present st key field raw :
  HGET st key field = Some raw → (HDEL st key field).1 = 1.
Proof. intros H. by rewrite HDEL_count, H. Qed.

Lemma HGET_is_Some_key st key field raw :
  HGET st key field = Some raw → is_Some (st !! key).
Proof.
  unfold HGET, hash_fields. destruct (st !! key); [eauto|].
  by rewrite lookup_empty.
Qed.

(** The run of [remove_item]. *)
Lemma remove_item_run cfg cart product is_guest st :
  let key := CartService._get_cart_key cart in
  CartService.remove_item cfg cart product is_guest st
  = match HGET st key product with
    | None => (st, Done false)
    | Some _ =>
        let st1 := (HDEL st key product).2 in
        (if 0 <? HLEN st1 key then EXPIRE st1 key (CartService._get_ttl cfg is_guest)
         else (DEL st1 key).2,
         Done true)
    end.
Proof.
  intros key. unfold CartService.remove_item, bind, command, query, update, ret.
  fold key. destruct (HGET st key product) as [raw|] eqn:Hget.
  - pose proof (HDEL_present _ _ _ _ Hget) as Hn.
    destruct (HDEL st key product) as [n st1]. simpl in *. subst n. simpl.
    destruct (0 <? HLEN st1 key); [done|]. by destruct (DEL st1 key).
  - by rewrite (HDEL_absent _ _ _ Hget).
Qed.

(** What is left after a field was taken out and the key refreshed or
    deleted. *)
Lemma drop_field_effect st key field raw ttl :
  HGET st key field = Some raw →
  let st1 := (HDEL st key field).2 in
  let st' := if 0 <? HLEN st1 key then EXPIRE st1 key ttl else (DEL st1 key).2 in
  HGET st' key field = None ∧
  (∀ other, other ≠ field → HGET st' key other = HGET st key other) ∧
  (∀ k, k ≠ key → st' !! k = st !! k) ∧
  ((∀ other, other ≠ field → HGET st key other = None) → st' !! key = None) ∧
  ((∃ other, other ≠ field ∧ is_Some (HGET st key other)) →
     is_Some (st' !! key) ∧ TTL st' key = Some ttl).
Proof.
  intros Hget st1 st'.
  assert (Hf1 : hash_fields st1 key = delete field (hash_fields st key))
    by apply hash_fields_HDEL.
  assert (Hexists : is_Some (st !! key)) by (by eapply HGET_is_Some_key).
  subst st'. destruct (Z.ltb_spec 0 (HLEN st1 key)) as [Hpos|Hzero].
  - apply HLEN_pos in Hpos. split; [|split; [|split; [|split]]].
    + unfold HGET. rewrite hash_fields_EXPIRE, Hf1. apply lookup_delete_eq.
    + intros other Hne. unfold HGET. rewrite hash_fields_EXPIRE, Hf1.
      by apply lookup_delete_ne.
    + intros k Hne. rewrite lookup_EXPIRE_ne by done. by apply lookup_HDEL_ne.
    + intros Hnone. exfalso. apply Hpos. rewrite Hf1. apply map_eq. intros f.
      rewrite lookup_empty. destruct (decide (field = f)) as [<-|Hne].
      * apply lookup_delete_eq.
      * rewrite lookup_delete_ne by done. by apply Hnone.
    + intros _. split.
      * apply EXPIRE_is_Some, HDEL_is_Some, Hexists.
      * apply TTL_EXPIRE, HDEL_is_Some, Hexists.
  - assert (Hempty : hash_fields st1 key = ∅).
    { destruct (decide (hash_fields st1 key = ∅)) as [|Hne]; [done|].
      apply HLEN_pos in Hne. lia. }
    split; [|split; [|split; [|split]]].
    + unfold HGET, hash_fields. rewrite lookup_DEL. by rewrite decide_True.
    + intros other Hne. unfold HGET at 1. unfold hash_fields at 1.
      rewrite lookup_DEL, decide_True by done. rewrite lookup_empty.
      assert (hash_fields st1 key !! other = None) as Hin
        by (by rewrite Hempty, lookup_empty).
      rewrite Hf1, lookup_delete_ne in Hin by done. by rewrite <- Hin.
    + intros k Hne. rewrite lookup_DEL, decide_False by done.
      by apply lookup_HDEL_ne.
    + intros _. rewrite lookup_DEL. by rewrite decide_True.
    + intros (other & Hne & [x Hx]). exfalso.
      assert (hash_fields st1 key !! other = Some x) as Hin.
      { rewrite Hf1, lookup_delete_ne by done. exact Hx. }
      rewrite Hempty, lookup_empty in Hin. discriminate.
Qed.

(** X5.  [remove_item] answers [False] and changes nothing when the cart
    does not have the product.  When it has it, whatever the entry holds, the
    answer is [True], the entry is gone, the other entries and the other carts
    are as before, and the cart key is deleted when no other entry is left
    and carries the expiry of the cart's kind otherwise. *)
Theorem remove_item_effect cfg st cart product is_guest :
  let key := CartService._get_cart_key cart in
  let run := CartService.remove_item cfg cart product is_guest st in
  (HGET st key product = None → run = (st, Done false)) ∧
  (is_Some (HGET st key product) →
     run.2 = Done true ∧
     HGET run.1 key product = None ∧
     (∀ other, other ≠ product → HGET run.1 key other = HGET st key other) ∧
     (∀ k, k ≠ key → run.1 !! k = st !! k) ∧
     ((∀ other, other ≠ product → HGET st key other = None) → run.1 !! key = None) ∧
     ((∃ other, other ≠ product ∧ is_Some (HGET st key other)) →
        is_Some (run.1 !! key) ∧
        TTL run.1 key = Some (CartService._get_ttl cfg is_guest))).
Proof.
  intros key run. subst run. rewrite remove_item_run. fold key. split.
  - by intros ->.
  - intros [raw Hget]. rewrite Hget. cbv zeta. simpl fst. simpl snd.
    split; [done|].
    exact (drop_field_effect st key product raw (CartService._get_ttl cfg is_guest) Hget).
Qed.

(** The run of [update_quantity] to 0 on a product the cart has. *)
Lemma update_quantity_zero_run cfg cart product is_guest st raw :
  let key := CartService._get_cart_key cart in
  HGET st key product = Some raw →
  0 ≤ MAX_QUANTITY_PER_ITEM cfg →
  CartService.update_quantity cfg cart product 0 is_guest st
  = match stored_quantity raw with
    | Some _ =>
        let st1 := (HDEL st key product).2 in
        (if 0 <? HLEN st1 key then EXPIRE st1 key (CartService._get_ttl cfg is_guest)
         else (DEL st1 key).2,
         Done (RDict [("ok", JBool true); ("quantity", JInt 0); ("removed", JBool true)]))
    | None => (st, Failed RedisConnectionError)
    end.
Proof.
  intros key Hget Hmax.
  unfold CartService.update_quantity. simpl (0 <? 0).
  rewrite (proj2 (Z.ltb_ge _ _) Hmax). cbv zeta. fold key.
  unfold bind at 1. unfold AtomicScripts.update_quantity, eval.
  unfold UPDATE_QUANTITY_SCRIPT, bind, query. simpl. rewrite Hget.
  rewrite (proj2 (Z.ltb_ge _ _) Hmax).
  unfold stored_quantity, cjson_decode, index, need.
  destruct (decode raw) as [data|]; simpl; [|done].
  destruct data as [| | | | |members]; simpl; try done.
  - unfold command, update, ret.
    destruct (HDEL st key product) as [n st1]. simpl.
    destruct (0 <? HLEN st1 key); [done|]. by destruct (DEL st1 key).
  - unfold command, update, ret.
    destruct (HDEL st key product) as [n st1]. simpl.
    destruct (0 <? HLEN st1 key); [done|]. by destruct (DEL st1 key).
  - unfold command, update, ret.
    destruct (HDEL st key product) as [n st1]. simpl.
    destruct (0 <? HLEN st1 key); [done|]. by destruct (DEL st1 key).
Qed.

Lemma update_quantity_absent_run cfg cart product quantity is_guest st :
  HGET st (CartService._get_cart_key cart) product = None →
  0 ≤ quantity → quantity ≤ MAX_QUANTITY_PER_ITEM cfg →
  CartService.update_quantity cfg cart product quantity is_guest st
  = (st, Failed (ProductNotFoundError product)).
Proof.
  intros Hget H0 Hmax. unfold CartService.update_quantity.
  rewrite (proj2 (Z.ltb_ge _ _) H0), (proj2 (Z.ltb_ge _ _) Hmax). cbv zeta.
  unfold bind, AtomicScripts.update_quantity, eval.
  by rewrite UPDATE_QUANTITY_SCRIPT_absent.
Qed.


Lemma clear_cart_run cart st :
  CartService.clear_cart cart st
  = (delete (CartService._get_cart_key cart) st,
     Done (EXISTS st (CartService._get_cart_key cart))).
Proof.
  unfold CartService.clear_cart, bind, command, ret, EXISTS, DEL.
  destruct (st !! CartService._get_cart_key cart) as [h|] eqn:E.
  - by rewrite bool_decide_true by eauto.
  - rewrite bool_decide_false by (by intros [? ?]). by rewrite delete_id.
Qed.

(** X7.  [clear_cart] answers whether the cart was there and leaves the
    cache without it and otherwise as it was; after it a read of the cart
    raises [CartNotFoundError], a second [clear_cart] answers [False] and
    changes nothing, and no product is found under the cart's key. *)
Theorem clear_cart_effect st cart :
  let key := CartService._get_cart_key cart in
  let run := CartService.clear_cart cart st in
  run.2 = Done (EXISTS st key) ∧
  run.1 !! key = None ∧
  (∀ k, k ≠ key → run.1 !! k = st !! k) ∧
  (CartService.get_cart cart run.1).2 = Failed (CartNotFoundError cart) ∧
  CartService.clear_cart cart run.1 = (run.1, Done false) ∧
  (∀ product, HGET run.1 key product = None).
Proof.
  intros key run. subst run. rewrite clear_cart_run. fold key. simpl.
  assert (Hnone : delete key st !! key = None) by apply lookup_delete_eq.
  split; [done|]. split; [done|]. split; [|split; [|split]].
  - intros k Hne. by apply lookup_delete_ne.
  - rewrite get_cart_unfold. fold key. by rewrite Hnone.
  - rewrite clear_cart_run. fold key. unfold EXISTS. rewrite Hnone.
    rewrite bool_decide_false by (by intros [? ?]). by rewrite delete_id.
  - intros product. unfold HGET, hash_fields. by rewrite Hnone.
Qed.

(** ** What the service answers to an addition, and what a failure leaves *)

Lemma or_blank_twice variant : or_blank (Some (or_blank variant)) = or_blank variant.
Proof. done. Qed.

(** The run of [CartService.add_item] when the quantity passed the two
    checks made before the script. *)
Lemma add_item_run cfg cart product qty price variant is_guest st :
  0 < qty → qty ≤ MAX_QUANTITY_PER_ITEM cfg →
  let key := CartService._get_cart_key cart in
  CartService.add_item cfg cart product qty price variant is_guest st
  = match existing_quantity st key product with
    | None => (st, Failed RedisConnectionError)
    | Some existing =>
        if (MAX_QUANTITY_PER_ITEM cfg <? existing + qty)
           || ((existing =? 0) && (MAX_ITEMS_PER_CART cfg <=? HLEN st key))
        then (st, Failed LimitExceededError)
        else
          (EXPIRE (HSET st key product
                     (item_payload (existing + qty) price (or_blank variant)))
             key (CartService._get_ttl cfg is_guest),
           Done [("ok", JBool true); ("quantity", JInt (existing + qty));
                 ("is_new", JBool (existing =? 0))])
    end.
Proof.
  intros H0 Hmax key. unfold CartService.add_item.
  rewrite (proj2 (Z.leb_gt _ _) H0), (proj2 (Z.ltb_ge _ _) Hmax). cbv zeta. fold key.
  unfold bind at 1. unfold bind at 1.
  unfold try_except, AtomicScripts.add_item, eval. rewrite or_blank_twice.
  destruct (existing_quantity st key product) as [existing|] eqn:Hex.
  - rewrite (ADD_ITEM_SCRIPT_run _ _ _ _ _ _ _ _ _ _ Hex). cbv zeta.
    destruct (MAX_QUANTITY_PER_ITEM cfg <? existing + qty); [done|].
    destruct ((existing =? 0) && (MAX_ITEMS_PER_CART cfg <=? HLEN st key)); done.
  - pose proof (ADD_ITEM_SCRIPT_stops st key product qty price (or_blank variant)
                  (MAX_ITEMS_PER_CART cfg) (MAX_QUANTITY_PER_ITEM cfg)
                  (CartService._get_ttl cfg is_guest) Hex) as Hst.
    unfold existing_quantity in Hex.
    revert Hst. unfold ADD_ITEM_SCRIPT, bind, query. simpl.
    destruct (HGET st key product) as [raw|]; [|discriminate].
    unfold stored_quantity in Hex. unfold cjson_decode, index, bind, need.
    destruct (decode raw) as [data|]; simpl in *; [|done].
    destruct (lua_index data "quantity") as [q|]; simpl in *; [discriminate|done].
Qed.


Lemma UPDATE_QUANTITY_SCRIPT_failed st cart_key product_id quantity max_quantity ttl e :
  (UPDATE_QUANTITY_SCRIPT cart_key product_id quantity max_quantity ttl st).2 = Failed e →
  (UPDATE_QUANTITY_SCRIPT cart_key product_id quantity max_quantity ttl st).1 = st.
Proof.
  unfold UPDATE_QUANTITY_SCRIPT, bind, query. simpl.
  destruct (HGET st cart_key product_id) as [raw|]; [|done].
  destruct (quantity <? 0); [done|].
  destruct (max_quantity <? quantity); [done|].
  unfold cjson_decode, index, need.
  destruct (decode raw) as [data|]; simpl; [|done].
  destruct (lua_index data "price_snapshot") as [price|]; simpl; [|done].
  destruct (lua_index data "variant") as [v|]; simpl; [|done].
  destruct (quantity =? 0).
  - unfold command, update, ret.
    destruct (HDEL st cart_key product_id) as [n st1]. simpl.
    destruct (0 <? HLEN st1 cart_key); [done|]. by destruct (DEL st1 cart_key).
  - done.
Qed.

Lemma UPDATE_QUANTITY_SCRIPT_err st cart_key product_id quantity max_quantity ttl t :
  (UPDATE_QUANTITY_SCRIPT cart_key product_id quantity max_quantity ttl st).2 = Done t →
  py_truthy (assoc "err" t) = true →
  (UPDATE_QUANTITY_SCRIPT cart_key product_id quantity max_quantity ttl st).1 = st.
Proof.
  unfold UPDATE_QUANTITY_SCRIPT, bind, query. simpl.
  destruct (HGET st cart_key product_id) as [raw|]; [|done].
  destruct (quantity <? 0); [done|].
  destruct (max_quantity <? quantity); [done|].
  unfold cjson_decode, index, need.
  destruct (decode raw) as [data|]; simpl; [|done].
  destruct (lua_index data "price_snapshot") as [price|]; simpl; [|done].
  destruct (lua_index data "variant") as [v|]; simpl; [|done].
  destruct (quantity =? 0).
  - unfold command, update, ret.
    destruct (HDEL st cart_key product_id) as [n st1]. simpl.
    destruct (0 <? HLEN st1 cart_key).
    + by intros [= <-].
    + destruct (DEL st1 cart_key). by intros [= <-].
  - by intros [= <-].
Qed.

Lemma remove_item_returns cfg cart product is_guest st :
  ∃ b, (CartService.remove_item cfg cart product is_guest st).2 = Done b.
Proof.
  rewrite remove_item_run. cbv zeta.
  destruct (HGET st (CartService._get_cart_key cart) product); eauto.
Qed.


(** ** What an update answers *)

(** The run of [update_quantity] to a positive quantity within the limit, on
    a product the cart has. *)
Lemma update_quantity_positive_run cfg cart product qty is_guest st raw :
  let key := CartService._get_cart_key cart in
  HGET st key product = Some raw →
  0 < qty → qty ≤ MAX_QUANTITY_PER_ITEM cfg →
  CartService.update_quantity cfg cart product qty is_guest st
  = match decode raw with
    | Some (JObj members) =>
        (EXPIRE (HSET st key product
                   (encode (item_table qty (assoc "price_snapshot" members)
                              (or_empty (assoc "variant" members)))))
           key (CartService._get_ttl cfg is_guest),
         Done (RDict [("ok", JBool true); ("quantity", JInt qty);
                      ("removed", JBool false)]))
    | Some (JArr _) | Some (JStr _) =>
        (EXPIRE (HSET st key product (encode (item_table qty None (JStr ""))))
           key (CartService._get_ttl cfg is_guest),
         Done (RDict [("ok", JBool true); ("quantity", JInt qty);
                      ("removed", JBool false)]))
    | _ => (st, Failed RedisConnectionError)
    end.
Proof.
  intros key Hget H0 Hmax. unfold CartService.update_quantity.
  rewrite (proj2 (Z.ltb_ge _ _) (Z.lt_le_incl _ _ H0)), (proj2 (Z.ltb_ge _ _) Hmax).
  cbv zeta. fold key.
  unfold bind at 1. unfold AtomicScripts.update_quantity, eval.
  unfold UPDATE_QUANTITY_SCRIPT, bind, query. simpl. rewrite Hget.
  rewrite (proj2 (Z.ltb_ge _ _) (Z.lt_le_incl _ _ H0)), (proj2 (Z.ltb_ge _ _) Hmax).
  assert (Hnz : (qty =? 0) = false) by lia.
  unfold cjson_decode, index, need.
  destruct (decode raw) as [data|]; simpl; [|done].
  destruct data as [| | | | |members]; simpl; rewrite ?Hnz; done.
Qed.

(** The cache after an entry was written and the expiry set. *)
Lemma written_entry st key product qty price variant seconds :
  let st' := EXPIRE (HSET st key product (encode (item_table qty price variant)))
               key seconds in
  (∃ raw, HGET st' key product = Some raw ∧ stored_quantity raw = Some qty) ∧
  TTL st' key = Some seconds ∧
  (∀ other, other ≠ product → HGET st' key other = HGET st key other).
Proof.
  intros st'. subst st'. split; [|split].
  - exists (encode (item_table qty price variant)). split.
    + unfold HGET. rewrite hash_fields_EXPIRE, hash_fields_HSET.
      apply lookup_insert_eq.
    + apply stored_quantity_item_table.
  - apply TTL_EXPIRE, HSET_is_Some.
  - intros other Hne. unfold HGET.
    rewrite hash_fields_EXPIRE, hash_fields_HSET. by apply lookup_insert_ne.
Qed.


(** ** Reading a cart with entries of any kind *)

Lemma entry_items_skip k raw rest e :
  parse_item k raw = Failed e → entry_items ((k, raw) :: rest) = entry_items rest.
Proof. intros H. unfold entry_items. simpl. by rewrite H. Qed.

(** The loop of [get_cart] on entries it can read: the entries that parse
    are entered under their product, the others are passed over. *)
Lemma get_cart_loop_readable entries :
  NoDup entries.*1 →
  Forall (λ kv, entry_readable kv.1 kv.2 = true) entries →
  ∀ items total_price total_items, ∃ items' total_price',
    get_cart_loop entries items total_price total_items
    = Done (items', total_price',
            total_items + Zsum (quantity <$> entry_items entries)) ∧
    ∀ k, items' !! k
         = match (list_to_map entries : gmap string payload) !! k ≫= parsed k with
           | Some item => Some item
           | None => items !! k
           end.
Proof.
  induction entries as [|[k0 raw0] rest IH]; intros Hnodup Hall items0 tp0 ti0.
  - exists items0, tp0. simpl. rewrite Z.add_0_r. split; [done|].
    intros k. by rewrite lookup_empty.
  - apply NoDup_cons in Hnodup as [Hfresh Hnodup].
    apply Forall_cons in Hall as [Hhead Hall]. simpl in Hhead.
    assert (Hrest : (list_to_map rest : gmap string payload) !! k0 = None)
      by (by apply not_elem_of_list_to_map).
    unfold entry_readable in Hhead.
    destruct (parse_item k0 raw0) as [item|e] eqn:Hparse.
    + simpl get_cart_loop. rewrite Hparse.
      rewrite (entry_items_cons _ _ _ _ Hparse).
      match goal with
      | |- context [get_cart_loop rest ?i ?p ?t] =>
          destruct (IH Hnodup Hall i p t) as (items' & tp' & Hrun & Hitems)
      end.
      exists items', tp'. split.
      * rewrite Hrun. rewrite fmap_cons, Zsum_cons. by rewrite Z.add_assoc.
      * intros k. rewrite Hitems. simpl list_to_map.
        destruct (decide (k0 = k)) as [<-|Hne].
        -- rewrite Hrest, !lookup_insert_eq. simpl. unfold parsed. by rewrite Hparse.
        -- by rewrite !lookup_insert_ne by done.
    + rewrite (get_cart_loop_skips _ _ _ _ _ _ _ Hparse Hhead).
      rewrite (entry_items_skip _ _ _ _ Hparse).
      destruct (IH Hnodup Hall items0 tp0 ti0) as (items' & tp' & Hrun & Hitems).
      exists items', tp'. split; [done|].
      intros k. rewrite Hitems. simpl list_to_map.
      destruct (decide (k0 = k)) as [<-|Hne].
      * rewrite Hrest, lookup_insert_eq. simpl. unfold parsed. by rewrite Hparse.
      * by rewrite lookup_insert_ne by done.
Qed.

(** One entry that fails in a way the loop does not catch stops it. *)
Lemma get_cart_loop_unreadable entries :
  Exists (λ kv, entry_readable kv.1 kv.2 = false) entries →
  ∀ items total_price total_items, ∃ e,
    get_cart_loop entries items total_price total_items = Failed e ∧ caught e = false.
Proof.
  induction entries as [|[k0 raw0] rest IH]; intros Hex items0 tp0 ti0.
  - by apply Exists_nil in Hex.
  - simpl get_cart_loop. unfold entry_readable in *.
    destruct (parse_item k0 raw0) as [item|e] eqn:Hparse.
    + apply Exists_cons in Hex as [Hhead|Hex].
      * simpl in Hhead. by rewrite Hparse in Hhead.
      * by apply IH.
    + destruct (caught e) eqn:Hc.
      * apply Exists_cons in Hex as [Hhead|Hex].
        -- simpl in Hhead. rewrite Hparse in Hhead. congruence.
        -- by apply IH.
      * eauto.
Qed.

Lemma entry_items_nonneg_sum entries :
  0 ≤ Zsum (quantity <$> entry_items entries).
Proof.
  pose proof (entry_items_quantity_nonneg entries) as H.
  induction H as [|item l Hq _ IH]; [done|].
  rewrite fmap_cons, Zsum_cons. lia.
Qed.

Lemma Zsum_Permutation l l' : l ≡ₚ l' → Zsum l = Zsum l'.
Proof.
  induction 1 as [|x l l' _ IH|x y l|l l' l'' _ IH1 _ IH2];
    rewrite ?Zsum_cons in *; unfold Zsum in *; simpl; lia.
Qed.

Lemma items_quantity_empty : items_quantity ∅ = 0.
Proof. unfold items_quantity. by rewrite map_to_list_empty. Qed.

Lemma items_quantity_insert cart_items k item :
  cart_items !! k = None →
  items_quantity (<[k := item]> cart_items) = quantity item + items_quantity cart_items.
Proof.
  intros H. unfold items_quantity.
  rewrite (Zsum_Permutation _ (quantity <$> ((k, item) :: map_to_list cart_items).*2)).
  - by rewrite !fmap_cons, Zsum_cons.
  - do 2 apply fmap_Permutation. by apply map_to_list_insert.
Qed.

(** What the loop of [get_cart] adds to the count is what it adds to the
    items. *)
Lemma get_cart_loop_counts entries :
  NoDup entries.*1 →
  ∀ cart_items total_price total_items cart_items' total_price' total_items',
    (∀ k, k ∈ entries.*1 → cart_items !! k = None) →
    get_cart_loop entries cart_items total_price total_items
    = Done (cart_items', total_price', total_items') →
    total_items' - total_items
    = items_quantity cart_items' - items_quantity cart_items.
Proof.
  induction entries as [|[k0 raw0] rest IH];
    intros Hnodup items0 tp0 ti0 items' tp' ti' Hfresh.
  - intros [= <- _ <-]. lia.
  - apply NoDup_cons in Hnodup as [Hk0 Hnodup]. cbn [get_cart_loop].
    destruct (parse_item k0 raw0) as [item|e].
    + intros Hrun. apply (IH Hnodup) in Hrun.
      * rewrite items_quantity_insert in Hrun by (apply Hfresh; left). lia.
      * intros k Hk. rewrite lookup_insert_ne by (intros <-; done).
        apply Hfresh. by right.
    + destruct (caught e); [|done]. apply (IH Hnodup).
      intros k Hk. apply Hfresh. by right.
Qed.

(** The read of an existing cart whose entries the loop can deal with. *)
Lemma get_cart_readable st cart :
  let key := CartService._get_cart_key cart in
  is_Some (st !! key) →
  readable_cart st key →
  ∃ response,
    CartService.get_cart cart st = (st, Done response) ∧
    cart_id response = cart ∧
    (∀ k, items response !! k = HGET st key k ≫= parsed k) ∧
    total_items response = Zsum (quantity <$> entry_items (HGETALL st key)) ∧
    total_items response = items_quantity (items response) ∧
    0 ≤ total_items response.
Proof.
  intros key [h Hh]. rewrite get_cart_unfold. fold key. rewrite Hh.
  assert (Hfields : hash_fields st key = fields h)
    by (unfold hash_fields; by rewrite Hh).
  unfold readable_cart, HGET, HGETALL. rewrite Hfields.
  intros Hall.
  assert (Hlist : Forall (λ kv, entry_readable kv.1 kv.2 = true)
                    (map_to_list (fields h))).
  { apply Forall_forall. intros [k raw] Hin. apply elem_of_map_to_list in Hin.
    exact (Hall k raw Hin). }
  destruct (get_cart_loop_readable _ (NoDup_fst_map_to_list (fields h)) Hlist
              ∅ (mk_Decimal 0 0) 0) as (items' & tp' & Hrun & Hitems).
  rewrite list_to_map_to_list in Hitems.
  pose proof (get_cart_loop_counts _ (NoDup_fst_map_to_list (fields h)) _ _ _ _ _ _
                (λ k _, lookup_empty k) Hrun) as Hcount.
  rewrite items_quantity_empty in Hcount.
  pose proof (entry_items_nonneg_sum (map_to_list (fields h))) as Hsum.
  destruct (map_to_list (fields h)) as [|entry rest] eqn:Hentries.
  - apply map_to_list_empty_iff in Hentries.
    eexists. split; [reflexivity|]. cbn [cart_id items total_items].
    split; [done|]. split; [|by rewrite items_quantity_empty].
    intros k. by rewrite Hentries, !lookup_empty.
  - rewrite Hrun. eexists. split; [reflexivity|]. cbn [cart_id items total_items].
    split; [done|]. split; [|split; [|split]; lia].
    intros k. rewrite Hitems, lookup_empty.
    by destruct (fields h !! k ≫= parsed k).
Qed.

(** The read of an existing cart with an entry the loop cannot deal with. *)
Lemma get_cart_unreadable st cart :
  let key := CartService._get_cart_key cart in
  is_Some (st !! key) →
  ¬ readable_cart st key →
  ∃ e, CartService.get_cart cart st = (st, Failed e) ∧ caught e = false.
Proof.
  intros key [h Hh]. rewrite get_cart_unfold. fold key. rewrite Hh.
  assert (Hfields : hash_fields st key = fields h)
    by (unfold hash_fields; by rewrite Hh).
  unfold readable_cart. rewrite Hfields. intros Hnot.
  assert (Hlist : Exists (λ kv, entry_readable kv.1 kv.2 = false)
                    (map_to_list (fields h))).
  { apply (Exists_impl (λ kv : string * payload,
                          ¬ entry_readable kv.1 kv.2 = true)).
    - apply not_Forall_Exists; [intros kv; apply _|].
      intros Hall. apply Hnot. intros k raw Hk.
      apply (proj1 (Forall_forall _ _) Hall (k, raw)).
      by apply elem_of_map_to_list.
    - intros kv Hkv. by apply not_true_is_false. }
  destruct (get_cart_loop_unreadable _ Hlist ∅ (mk_Decimal 0 0) 0) as (e & Hrun & Hc).
  destruct (map_to_list (fields h)) as [|entry rest]; [by apply Exists_nil in Hlist|].
  rewrite Hrun. eauto.
Qed.


(** ** What a merge does to its source *)

(** Until its last command the script leaves every key but the target as it
    is, so a run that stops early has not touched the source. *)
Lemma MERGE_CART_SCRIPT_failed_keeps source_key target_key conflict_resolution ttl
    (h : option rhash) :
  source_key ≠ target_key →
  triple (λ st, st !! source_key = h)
    (MERGE_CART_SCRIPT source_key target_key conflict_resolution ttl)
    (λ _ _, True) (λ st, st !! source_key = h).
Proof.
  intros Hne. unfold MERGE_CART_SCRIPT.
  apply triple_bind with (Q' := λ _ st, st !! source_key = h);
    [apply preserves_query|intros source_items].
  destruct (length source_items =? 0)%nat; [by apply triple_ret|].
  apply triple_bind with (Q' := λ _ st, st !! source_key = h);
    [apply preserves_query|intros target_items].
  apply triple_bind with (Q' := λ _ st, st !! source_key = h);
    [apply preserves_build_target_map|intros target_map].
  apply triple_bind with (Q' := λ _ st, st !! source_key = h).
  { apply preserves_merge_loop. intros st field v <-. by apply lookup_HSET_ne. }
  intros counts st _. unfold bind, query, update, command, ret.
  destruct (EXISTS st target_key); simpl;
    by match goal with |- context [DEL ?s ?k] => destruct (DEL s k) end.
Qed.

(** A run that reaches its end on a source with entries has deleted the
    source. *)
Lemma MERGE_CART_SCRIPT_done_deletes source_key target_key conflict_resolution ttl :
  triple (λ st, HGETALL st source_key ≠ [])
    (MERGE_CART_SCRIPT source_key target_key conflict_resolution ttl)
    (λ _ st, st !! source_key = None) (λ _, True).
Proof.
  unfold MERGE_CART_SCRIPT.
  apply triple_bind with (Q' := λ source_items _, source_items ≠ []);
    [by apply triple_query|intros source_items].
  destruct source_items as [|entry rest]; [by intros st H|].
  change (length (entry :: rest) =? 0)%nat with false. cbv iota.
  apply triple_bind with (Q' := λ _ _, True); [by apply triple_query|intros target_items].
  apply triple_bind with (Q' := λ _ _, True).
  { eapply triple_weaken; [apply (preserves_build_target_map (λ _, True))|done..]. }
  intros target_map.
  apply triple_bind with (Q' := λ _ _, True).
  { eapply triple_weaken; [apply (preserves_merge_loop (λ _, True)); done|done..]. }
  intros counts st _. unfold bind, query, update, command, ret.
  destruct (EXISTS st target_key); simpl.
  - pose proof (lookup_DEL (EXPIRE st target_key ttl) source_key source_key) as H.
    destruct (DEL (EXPIRE st target_key ttl) source_key). simpl in *.
    by rewrite decide_True in H.
  - pose proof (lookup_DEL st source_key source_key) as H.
    destruct (DEL st source_key). simpl in *. by rewrite decide_True in H.
Qed.

Lemma merge_carts_absent_source cfg source target conflict_resolution is_guest st :
  conflict_resolution = "sum" ∨ conflict_resolution = "last-write-wins" →
  st !! CartService._get_cart_key source = None →
  CartService.merge_carts cfg source target conflict_resolution is_guest st
  = (st, Done (RDict [("ok", JBool true); ("merged", JInt 0); ("conflicts", JInt 0);
                      ("message", JStr "Source cart is empty")])).
Proof.
  intros Hpolicy Hnone. unfold CartService.merge_carts.
  assert (negb (String.eqb conflict_resolution "sum"
                || String.eqb conflict_resolution "last-write-wins") = false) as ->.
  { by destruct Hpolicy as [-> | ->]. }
  cbv zeta. unfold bind, query, EXISTS. rewrite Hnone.
  by rewrite bool_decide_false by (by intros [? ?]).
Qed.

(** X12.  The source of a merge, on a cache without empty hashes.  When
    [merge_carts] raises and the two carts are different, the source cart is
    as it was.  When [merge_carts] returns, the source cart is gone, also
    when it is the target itself; a second call with the same source then
    answers [merged = 0] with the message of an empty source and changes
    nothing, and a read of the source raises [CartNotFoundError]. *)
Theorem merge_carts_source_fate cfg st source target conflict_resolution is_guest :
  conflict_resolution = "sum" ∨ conflict_resolution = "last-write-wins" →
  no_empty_hash st →
  let source_key := CartService._get_cart_key source in
  let run := CartService.merge_carts cfg source target conflict_resolution is_guest st in
  (∀ e, run.2 = Failed e → source ≠ target → run.1 !! source_key = st !! source_key) ∧
  (∀ r, run.2 = Done r →
     run.1 !! source_key = None ∧
     (∀ target' is_guest',
        CartService.merge_carts cfg source target' conflict_resolution is_guest' run.1
        = (run.1, Done (RDict [("ok", JBool true); ("merged", JInt 0);
                               ("conflicts", JInt 0);
                               ("message", JStr "Source cart is empty")]))) ∧
     (CartService.get_cart source run.1).2 = Failed (CartNotFoundError source)).
Proof.
  intros Hpolicy Hinv source_key run.
  assert (Hgone : ∀ r, run.2 = Done r → run.1 !! source_key = None).
  { intros r. subst run.
    destruct (st !! source_key) as [h|] eqn:Hsource.
    - unfold CartService.merge_carts.
      assert (negb (String.eqb conflict_resolution "sum"
                    || String.eqb conflict_resolution "last-write-wins") = false) as ->.
      { by destruct Hpolicy as [-> | ->]. }
      cbv zeta. fold source_key. unfold bind, query.
      rewrite (proj2 (EXISTS_true st source_key)) by eauto.
      change (negb true) with false. cbv iota.
      unfold AtomicScripts.merge_cart, eval.
      pose proof (MERGE_CART_SCRIPT_done_deletes source_key
                    (CartService._get_cart_key target) conflict_resolution
                    (CartService._get_ttl cfg false) st) as Hrun.
      destruct (MERGE_CART_SCRIPT _ _ _ _ st) as [st' [t|e]]; [|done].
      intros _. apply Hrun. unfold HGETALL, hash_fields. rewrite Hsource.
      rewrite map_to_list_empty_iff. by apply (Hinv source_key).
    - by rewrite merge_carts_absent_source. }
  split.
  - intros e Hfailed Hne. subst run.
    revert Hfailed. unfold CartService.merge_carts.
    destruct (negb _); [done|]. cbv zeta. fold source_key. unfold bind, query.
    destruct (negb (EXISTS st source_key)); [done|].
    unfold AtomicScripts.merge_cart, eval.
    pose proof (MERGE_CART_SCRIPT_failed_keeps source_key
                  (CartService._get_cart_key target) conflict_resolution
                  (CartService._get_ttl cfg false) (st !! source_key)) as Hrun.
    specialize (Hrun (λ Heq, Hne (_get_cart_key_inj _ _ Heq)) st eq_refl).
    by destruct (MERGE_CART_SCRIPT _ _ _ _ st) as [st' [t|e']].
  - intros r Hdone. specialize (Hgone r Hdone). split; [done|]. split.
    + intros target' is_guest'. by apply merge_carts_absent_source.
    + rewrite get_cart_unfold. fold source_key. by rewrite Hgone.
Qed.

(** ** The units of a merge under [sum] *)

Section MapSums.
Context (f : payload → Z).

Local Abbreviation total := (hash_total f).

Lemma total_empty : total ∅ = 0.
Proof. unfold hash_total. by rewrite map_to_list_empty. Qed.

Lemma total_insert m i x : m !! i = None → total (<[i := x]> m) = f x + total m.
Proof.
  intros H. unfold hash_total.
  rewrite (Zsum_Permutation _ ((λ kv, f kv.2) <$> ((i, x) :: map_to_list m))).
  - by rewrite fmap_cons, Zsum_cons.
  - apply fmap_Permutation. by apply map_to_list_insert.
Qed.

Lemma total_delete m i :
  total m = default 0 (f <$> m !! i) + total (delete i m).
Proof.
  destruct (m !! i) as [x|] eqn:H; simpl.
  - rewrite <- (insert_delete_id m i x H) at 1.
    apply total_insert, lookup_delete_eq.
  - by rewrite delete_id.
Qed.

(** The total over a map put together from [s] and [t] entry by entry, when
    the entry written for a product of [s] counts for what the two maps had
    for it. *)
Lemma total_merge (w : option payload → payload → payload) (s : gmap string payload) :
  ∀ t m : gmap string payload,
    (∀ k, m !! k = match s !! k with
                   | Some raw => Some (w (t !! k) raw)
                   | None => t !! k
                   end) →
    (∀ k raw, s !! k = Some raw →
       f (w (t !! k) raw) = f raw + default 0 (f <$> t !! k)) →
    total m = total s + total t.
Proof.
  induction s as [|i x s Hi IH] using map_ind; intros t m Hm Hw.
  - assert (m = t) as ->; [|rewrite total_empty; lia].
    apply map_eq. intros k. by rewrite Hm, lookup_empty.
  - rewrite (total_insert s i x Hi), (total_delete m i), (total_delete t i).
    rewrite (IH (delete i t) (delete i m)).
    + rewrite Hm, lookup_insert_eq. simpl.
      rewrite (Hw i x) by apply lookup_insert_eq. lia.
    + intros k. destruct (decide (i = k)) as [<-|Hne].
      * by rewrite !lookup_delete_eq, Hi.
      * rewrite !lookup_delete_ne by done. rewrite Hm.
        by rewrite lookup_insert_ne by done.
    + intros k raw Hk.
      assert (i ≠ k) as Hne by (intros <-; congruence).
      rewrite lookup_delete_ne by done. apply Hw.
      by rewrite lookup_insert_ne by done.
Qed.

End MapSums.

Lemma hash_fields_DEL_ne st key key' :
  key ≠ key' → hash_fields (DEL st key).2 key' = hash_fields st key'.
Proof. intros Hne. unfold hash_fields. by rewrite lookup_DEL, decide_False. Qed.


(** ** No quantity below 1 *)

Lemma positive_quantities_ext st st' :
  (∀ key, hash_fields st' key = hash_fields st key) →
  positive_quantities st → positive_quantities st'.
Proof.
  intros Heq H key product raw q. unfold HGET. rewrite Heq. apply H.
Qed.

Lemma positive_quantities_EXPIRE st key seconds :
  positive_quantities st → positive_quantities (EXPIRE st key seconds).
Proof. apply positive_quantities_ext. intros. apply hash_fields_EXPIRE. Qed.

Lemma positive_quantities_HSET st key field v :
  positive_quantities st →
  (∀ q, stored_quantity v = Some q → 1 ≤ q) →
  positive_quantities (HSET st key field v).
Proof.
  intros H Hv key' product raw q. destruct (decide (key = key')) as [<-|Hne].
  - rewrite HGET_HSET. case_decide.
    + intros [= <-]. apply Hv.
    + apply H.
  - unfold HGET. rewrite hash_fields_HSET_ne by done. apply H.
Qed.

Lemma positive_quantities_HDEL st key field :
  positive_quantities st → positive_quantities (HDEL st key field).2.
Proof.
  intros H key' product raw q. destruct (decide (key = key')) as [<-|Hne].
  - unfold HGET. rewrite hash_fields_HDEL. intros Hget.
    apply lookup_delete_Some in Hget as [_ Hget]. by apply (H key product).
  - unfold HGET, hash_fields. rewrite lookup_HDEL_ne by done. apply (H key').
Qed.

Lemma positive_quantities_DEL st key :
  positive_quantities st → positive_quantities (DEL st key).2.
Proof.
  intros H key' product raw q. unfold HGET, hash_fields. rewrite lookup_DEL.
  case_decide; [by rewrite lookup_empty|]. apply (H key').
Qed.

Lemma positive_quantities_empty : positive_quantities ∅.
Proof. intros key product raw q. unfold HGET, hash_fields. by rewrite !lookup_empty. Qed.

Lemma triple_pure_l {E A} (φ : Prop) (P : store → Prop) (m : prog E A) Q R :
  (φ → triple P m Q R) → triple (λ st, P st ∧ φ) m Q R.
Proof. intros H st [HP Hφ]. by apply H. Qed.

(** An addition of a positive quantity. *)
Lemma ADD_ITEM_SCRIPT_positive cart_key product_id quantity price variant
    max_items max_quantity ttl :
  0 < quantity →
  preserves positive_quantities
    (ADD_ITEM_SCRIPT cart_key product_id quantity price variant max_items max_quantity ttl).
Proof.
  intros Hq st H.
  destruct (existing_quantity st cart_key product_id) as [existing|] eqn:Hex.
  - rewrite (ADD_ITEM_SCRIPT_run _ _ _ _ _ _ _ _ _ _ Hex). cbv zeta.
    destruct (max_quantity <? existing + quantity); [done|].
    destruct ((existing =? 0) && (max_items <=? HLEN st cart_key)); [done|].
    apply positive_quantities_EXPIRE, positive_quantities_HSET; [done|].
    intros q Hq'. unfold item_payload in Hq'.
    rewrite stored_quantity_item_table in Hq'. injection Hq' as <-.
    unfold existing_quantity in Hex.
    destruct (HGET st cart_key product_id) as [raw|] eqn:Hget.
    + pose proof (H _ _ _ _ Hget Hex). lia.
    + injection Hex as <-. lia.
  - pose proof (ADD_ITEM_SCRIPT_stops st cart_key product_id quantity price variant
                  max_items max_quantity ttl Hex) as Hst.
    destruct (ADD_ITEM_SCRIPT _ _ _ _ _ _ _ _ st) as [st' [t|e]]; simpl in Hst; by subst.
Qed.

(** An update to a quantity that is not negative. *)
Lemma UPDATE_QUANTITY_SCRIPT_positive cart_key product_id quantity max_quantity ttl :
  0 ≤ quantity →
  preserves positive_quantities
    (UPDATE_QUANTITY_SCRIPT cart_key product_id quantity max_quantity ttl).
Proof.
  intros Hq st H. unfold UPDATE_QUANTITY_SCRIPT, bind, query. simpl.
  destruct (HGET st cart_key product_id) as [raw|]; [|done].
  destruct (quantity <? 0); [done|].
  destruct (max_quantity <? quantity); [done|].
  unfold cjson_decode, index, need.
  destruct (decode raw) as [data|]; simpl; [|done].
  destruct (lua_index data "price_snapshot") as [price|]; simpl; [|done].
  destruct (lua_index data "variant") as [v|]; simpl; [|done].
  destruct (Z.eqb_spec quantity 0) as [->|Hne].
  - unfold command, update, ret.
    pose proof (positive_quantities_HDEL _ cart_key product_id H) as H1.
    destruct (HDEL st cart_key product_id) as [n st1]. simpl in *.
    destruct (0 <? HLEN st1 cart_key).
    + by apply positive_quantities_EXPIRE.
    + pose proof (positive_quantities_DEL _ cart_key H1) as H2.
      by destruct (DEL st1 cart_key).
  - unfold update, ret. simpl.
    apply positive_quantities_EXPIRE, positive_quantities_HSET; [done|].
    intros q Hq'. rewrite stored_quantity_item_table in Hq'. injection Hq' as <-. lia.
Qed.


Lemma positive_map_insert target_map k raw data :
  positive_map target_map →
  (∀ q, stored_quantity raw = Some q → 1 ≤ q) →
  decode raw = Some data →
  positive_map (<[k := data]> target_map).
Proof.
  intros Htm Hraw Hdata k' data' v. destruct (decide (k = k')) as [<-|Hne].
  - rewrite lookup_insert_eq. intros [= <-] Hv. apply Hraw.
    unfold stored_quantity. rewrite Hdata. simpl. by rewrite Hv.
  - rewrite lookup_insert_ne by done. apply Htm.
Qed.

(** The first loop of a merge on entries with quantities of at least 1. *)
Lemma build_target_map_positive (I : store → Prop) target_items :
  Forall (λ kv, ∀ q, stored_quantity kv.2 = Some q → 1 ≤ q) target_items →
  ∀ target_map, positive_map target_map →
    triple I (build_target_map target_items target_map)
      (λ target_map' st, I st ∧ positive_map target_map') I.
Proof.
  induction 1 as [|[k raw] rest Hraw _ IH]; intros target_map Htm; simpl.
  - by apply triple_ret.
  - unfold cjson_decode. destruct (decode raw) as [data|] eqn:Hdata; simpl.
    + intros st HI. unfold bind, ret.
      apply (IH (<[k := data]> target_map)); [|done].
      by eapply positive_map_insert.
    + intros st HI. by unfold bind, raise.
Qed.

(** The second loop of a merge, on source entries and decoded target
    entries with quantities of at least 1. *)
Lemma merge_loop_positive conflict_resolution target_key target_map source_items :
  Forall (λ kv, ∀ q, stored_quantity kv.2 = Some q → 1 ≤ q) source_items →
  positive_map target_map →
  ∀ merged_count conflict_count,
    preserves positive_quantities
      (merge_loop conflict_resolution target_key target_map source_items
         merged_count conflict_count).
Proof.
  intros Hsource Htm.
  induction Hsource as [|[k raw] rest Hraw _ IH]; intros merged_count conflict_count.
  - apply preserves_ret.
  - simpl in Hraw. intros st H. cbn [merge_loop].
    assert (Hcopy : positive_quantities (HSET st target_key k raw))
      by (by apply positive_quantities_HSET).
    destruct (target_map !! k) as [target_data|] eqn:Htk.
    + generalize (lua_truthy (Some target_data)). intros truthy.
      unfold cjson_decode, index, bind, need.
      destruct (decode raw) as [source_data|] eqn:Hdata; simpl; [|done].
      destruct (lua_index source_data "quantity") as [sq|] eqn:Hsq; simpl; [|done].
      assert (Hsource_qty : 1 ≤ tonumber_or_0 sq).
      { apply Hraw. unfold stored_quantity. rewrite Hdata. simpl. by rewrite Hsq. }
      destruct truthy; [|unfold update; by apply IH].
      destruct (lua_index target_data "quantity") as [tq|] eqn:Htq; simpl; [|done].
      pose proof (Htm _ _ _ Htk Htq) as Htarget_qty.
      destruct (String.eqb conflict_resolution "sum"); [|unfold update; by apply IH].
      destruct (lua_index source_data "price_snapshot") as [price|]; simpl; [|done].
      destruct (lua_index source_data "variant") as [v|]; simpl; [|done].
      unfold update. apply IH. apply positive_quantities_HSET; [done|].
      intros q Hq. rewrite stored_quantity_item_table in Hq.
      injection Hq as <-. lia.
    + unfold cjson_decode, index, bind, need.
      destruct (decode raw) as [source_data|] eqn:Hdata; simpl; [|done].
      destruct (lua_index source_data "quantity") as [sq|] eqn:Hsq; simpl; [|done].
      unfold update. by apply IH.
Qed.

Lemma MERGE_CART_SCRIPT_positive source_key target_key conflict_resolution ttl :
  preserves positive_quantities
    (MERGE_CART_SCRIPT source_key target_key conflict_resolution ttl).
Proof.
  assert (Hentries : ∀ st key, positive_quantities st →
            Forall (λ kv, ∀ q, stored_quantity kv.2 = Some q → 1 ≤ q) (HGETALL st key)).
  { intros st key H. apply Forall_forall. intros [k raw] Hin q.
    apply elem_of_map_to_list in Hin. by apply (H key k). }
  unfold MERGE_CART_SCRIPT.
  apply triple_bind
    with (Q' := λ source_items st,
                  positive_quantities st ∧
                  Forall (λ kv, ∀ q, stored_quantity kv.2 = Some q → 1 ≤ q) source_items).
  { apply triple_query. intros st H. split; [done|]. by apply Hentries. }
  intros source_items. apply triple_pure_l. intros Hsource.
  destruct (length source_items =? 0)%nat; [apply preserves_ret|].
  apply triple_bind
    with (Q' := λ target_items st,
                  positive_quantities st ∧
                  Forall (λ kv, ∀ q, stored_quantity kv.2 = Some q → 1 ≤ q) target_items).
  { apply triple_query. intros st H. split; [done|]. by apply Hentries. }
  intros target_items. apply triple_pure_l. intros Htarget.
  apply triple_bind
    with (Q' := λ target_map st, positive_quantities st ∧ positive_map target_map).
  { apply build_target_map_positive; [done|]. intros k data v. by rewrite lookup_empty. }
  intros target_map. apply triple_pure_l. intros Htm.
  apply preserves_bind; [by apply merge_loop_positive|]. intros counts.
  step_preserves.
  - apply preserves_update. intros. by apply positive_quantities_EXPIRE.
  - apply preserves_bind; [|intros; apply preserves_ret].
    apply preserves_command. intros. by apply positive_quantities_DEL.
Qed.

(** X14.  The cart service never stores a quantity below 1: when every
    quantity the scripts can read off the cache is at least 1, this is still
    so after [add_item], [update_quantity], [remove_item], [clear_cart] and
    [merge_carts], whatever their arguments and however they end. *)
Theorem mutations_keep_quantities_positive cfg st :
  positive_quantities st →
  (∀ cart product qty price variant is_guest,
     positive_quantities
       (CartService.add_item cfg cart product qty price variant is_guest st).1) ∧
  (∀ cart product qty is_guest,
     positive_quantities (CartService.update_quantity cfg cart product qty is_guest st).1) ∧
  (∀ cart product is_guest,
     positive_quantities (CartService.remove_item cfg cart product is_guest st).1) ∧
  (∀ cart, positive_quantities (CartService.clear_cart cart st).1) ∧
  (∀ source target conflict_resolution is_guest,
     positive_quantities
       (CartService.merge_carts cfg source target conflict_resolution is_guest st).1).
Proof.
  intros H. split; [|split; [|split; [|split]]]; intros.
  - apply preserves_run; [|done]. unfold CartService.add_item.
    destruct (Z.leb_spec qty 0); [apply preserves_raise|].
    unfold AtomicScripts.add_item. step_preserves.
    by apply ADD_ITEM_SCRIPT_positive.
  - apply preserves_run; [|done]. unfold CartService.update_quantity.
    destruct (Z.ltb_spec qty 0); [apply preserves_raise|].
    unfold AtomicScripts.update_quantity. step_preserves.
    by apply UPDATE_QUANTITY_SCRIPT_positive.
  - rewrite remove_item_run. cbv zeta.
    destruct (HGET st (CartService._get_cart_key cart) product); [|done].
    simpl fst.
    destruct (0 <? HLEN _ _).
    + by apply positive_quantities_EXPIRE, positive_quantities_HDEL.
    + by apply positive_quantities_DEL, positive_quantities_HDEL.
  - rewrite clear_cart_run. simpl fst.
    pose proof (positive_quantities_DEL st (CartService._get_cart_key cart) H) as HD.
    unfold DEL in HD. destruct (st !! CartService._get_cart_key cart) eqn:E; [done|].
    by rewrite delete_id.
  - apply preserves_run; [|done]. unfold CartService.merge_carts,
      AtomicScripts.merge_cart. step_preserves.
    apply MERGE_CART_SCRIPT_positive.
Qed.

(** ** Writing, then reading *)

Lemma parse_item_item_payload product q price variant d :
  0 ≤ q → Decimal_of_string price = Some d →
  parse_item product (item_payload q price variant)
  = Done (mk_CartItem product q d (Some variant)).
Proof.
  intros Hq Hd. unfold parse_item, item_payload. simpl. rewrite Hd.
  unfold validate_quantity. simpl. by rewrite (proj2 (Z.ltb_ge _ _) Hq).
Qed.

(** What [add_item] did when it returned. *)
Lemma add_item_done cfg cart product qty price variant is_guest st t :
  let key := CartService._get_cart_key cart in
  (CartService.add_item cfg cart product qty price variant is_guest st).2 = Done t →
  ∃ existing,
    0 < qty ∧ existing + qty ≤ MAX_QUANTITY_PER_ITEM cfg ∧
    existing_quantity st key product = Some existing ∧
    ((existing =? 0) && (MAX_ITEMS_PER_CART cfg <=? HLEN st key) = false) ∧
    CartService.add_item cfg cart product qty price variant is_guest st
    = (EXPIRE (HSET st key product
                 (item_payload (existing + qty) price (or_blank variant)))
         key (CartService._get_ttl cfg is_guest),
       Done [("ok", JBool true); ("quantity", JInt (existing + qty));
             ("is_new", JBool (existing =? 0))]).
Proof.
  intros key.
  destruct (Z.leb_spec qty 0) as [H|H0].
  { unfold CartService.add_item. by rewrite (proj2 (Z.leb_le _ _) H). }
  destruct (Z.ltb_spec (MAX_QUANTITY_PER_ITEM cfg) qty) as [H|Hmax].
  { unfold CartService.add_item.
    by rewrite (proj2 (Z.leb_gt _ _) H0), (proj2 (Z.ltb_lt _ _) H). }
  rewrite (add_item_run cfg cart product qty price variant is_guest st H0 Hmax).
  cbv zeta. fold key.
  destruct (existing_quantity st key product) as [existing|]; [|done].
  destruct (Z.ltb_spec (MAX_QUANTITY_PER_ITEM cfg) (existing + qty)); [done|].
  destruct ((existing =? 0) && (MAX_ITEMS_PER_CART cfg <=? HLEN st key)) eqn:Hfull;
    [done|].
  simpl. intros _. exists existing. by rewrite Hfull.
Qed.

Lemma existing_quantity_nonneg st key product existing :
  positive_quantities st → existing_quantity st key product = Some existing →
  0 ≤ existing.
Proof.
  intros H. unfold existing_quantity.
  destruct (HGET st key product) as [raw|] eqn:Hget.
  - intros Hq. pose proof (H _ _ _ _ Hget Hq). lia.
  - by intros [= <-].
Qed.



(** ** Adding twice *)

Lemma lookup_HSET_eq st key field v :
  HSET st key field v !! key
  = Some (mk_rhash (<[field := v]> (hash_fields st key)) (TTL st key)).
Proof.
  unfold HSET, hash_fields, TTL. destruct (st !! key) as [h|];
    rewrite lookup_insert_eq; [done|]. by rewrite insert_empty.
Qed.

Lemma lookup_EXPIRE_eq st key seconds :
  EXPIRE st key seconds !! key
  = (λ h, mk_rhash (fields h) (Some seconds)) <$> st !! key.
Proof.
  unfold EXPIRE. destruct (st !! key) as [h|] eqn:E.
  - by rewrite lookup_insert_eq.
  - by rewrite E.
Qed.

Lemma HSET_EXPIRE_twice st key field v1 v2 ttl1 ttl2 :
  EXPIRE (HSET (EXPIRE (HSET st key field v1) key ttl1) key field v2) key ttl2
  = EXPIRE (HSET st key field v2) key ttl2.
Proof.
  apply map_eq. intros k. destruct (decide (key = k)) as [<-|Hne].
  - rewrite !lookup_EXPIRE_eq, !lookup_HSET_eq.
    rewrite hash_fields_EXPIRE, hash_fields_HSET. cbn [fmap option_fmap option_map fields].
    by rewrite insert_insert_eq.
  - by rewrite !lookup_EXPIRE_ne, !lookup_HSET_ne, lookup_EXPIRE_ne, lookup_HSET_ne.
Qed.

(** X17.  Two additions of a product add up.  On a cache with no quantity
    below 1, when [add_item] returns and a second [add_item] of the same
    product to the same cart returns after it, the second answers the stored
    quantity plus both quantities with [is_new] false, and the cache is the
    one that a single [add_item] of the two quantities together, with the
    price and the variant of the second, leaves. *)
Theorem add_item_twice cfg st cart product q1 q2 price1 price2 variant1 variant2
    is_guest t1 t2 :
  let key := CartService._get_cart_key cart in
  let first := CartService.add_item cfg cart product q1 price1 variant1 is_guest st in
  let second :=
    CartService.add_item cfg cart product q2 price2 variant2 is_guest first.1 in
  positive_quantities st →
  first.2 = Done t1 → second.2 = Done t2 →
  ∃ existing,
    existing_quantity st key product = Some existing ∧
    second.2 = Done [("ok", JBool true); ("quantity", JInt (existing + q1 + q2));
                     ("is_new", JBool false)] ∧
    second.1
    = (CartService.add_item cfg cart product (q1 + q2) price2 variant2 is_guest st).1.
Proof.
  intros key first second Hpos H1 H2. subst first second.
  destruct (add_item_done _ _ _ _ _ _ _ _ _ H1)
    as (existing & Hq1 & Hmax1 & Hex & Hroom & Hrun1).
  fold key in Hex, Hroom, Hrun1. rewrite Hrun1 in H2 |- *. cbn [fst] in H2 |- *.
  pose proof (existing_quantity_nonneg _ _ _ _ Hpos Hex) as Hnn.
  destruct (add_item_done _ _ _ _ _ _ _ _ _ H2)
    as (existing2 & Hq2 & Hmax2 & Hex2 & _ & Hrun2).
  fold key in Hex2, Hrun2.
  assert (existing2 = existing + q1) as ->.
  { revert Hex2. unfold existing_quantity, HGET.
    rewrite hash_fields_EXPIRE, hash_fields_HSET, lookup_insert_eq.
    unfold item_payload. rewrite stored_quantity_item_table. by intros [= <-]. }
  exists existing. split; [done|]. rewrite Hrun2. cbn [fst snd].
  assert (Hnew : (existing + q1 =? 0) = false) by lia.
  rewrite Hnew. split; [done|].
  rewrite (add_item_run cfg cart product (q1 + q2) price2 variant2 is_guest st)
    by lia.
  fold key. rewrite Hex. cbv zeta.
  assert (Hfits : (MAX_QUANTITY_PER_ITEM cfg <? existing + (q1 + q2)) = false) by lia.
  rewrite Hfits, Hroom. cbn [orb fst].
  rewrite HSET_EXPIRE_twice. by rewrite Z.add_assoc.
Qed.

(** ** The checkout *)

(** [start_checkout] as a function of what [get_cart] reports. *)
Lemma start_checkout_run order cart user validate_pricing st :
  CheckoutService.start_checkout order cart user validate_pricing st
  = match (CartService.get_cart cart st).2 with
    | Failed (CartNotFoundError _) => (st, Failed ValidationError)
    | Failed e => (st, Failed e)
    | Done response =>
        if (size (items response) =? 0)%nat then (st, Failed ValidationError)
        else
          match filter (λ kv, CheckoutService.available_stock < quantity kv.2)
                  (map_to_list (items response)) with
          | _ :: _ => (st, Failed ValidationError)
          | [] =>
              (delete (CartService._get_cart_key cart) st,
               Done (CheckoutService.mk_CheckoutResponse order cart
                       (total_price response) (map_to_list (items response)).*2
                       "Order placed successfully. Cart has been cleared."))
          end
    end.
Proof.
  unfold CheckoutService.start_checkout, bind, except_CartNotFoundError.
  pose proof (get_cart_reads_only cart st) as Hst.
  destruct (CartService.get_cart cart st) as [st' [response|e]]; simpl in Hst; subst st'.
  - cbn [snd]. destruct response as [c cart_items ti tp]. cbn [items total_price].
    destruct (size cart_items =? 0)%nat; [done|].
    destruct (filter _ (map_to_list cart_items)); [|done].
    by rewrite clear_cart_run.
  - cbn [snd]. by destruct e.
Qed.

(** X18.  [start_checkout].  On a cart that is not there it raises
    [ValidationError].  Whenever it raises, whatever the error, the cache is
    as before.  When it returns, the cart is gone and the rest of the cache is
    as before; the response carries the order and cart identifiers, the
    [total_price] that [get_cart] reported and, up to their order, the items
    it listed, of which there is at least one and none with a quantity above
    the stock of 999; and a checkout of the same cart right after raises
    [ValidationError] and changes nothing. *)
Theorem start_checkout_effect order cart user validate_pricing st :
  let key := CartService._get_cart_key cart in
  let run := CheckoutService.start_checkout order cart user validate_pricing st in
  (st !! key = None → run = (st, Failed ValidationError)) ∧
  (∀ e, run.2 = Failed e → run.1 = st) ∧
  (∀ r, run.2 = Done r →
     run.1 = delete key st ∧
     CheckoutService.order_id r = order ∧
     CheckoutService.cart_id r = cart ∧
     (∃ response,
        (CartService.get_cart cart st).2 = Done response ∧
        CheckoutService.total r = total_price response ∧
        CheckoutService.items r ≡ₚ (map_to_list (items response)).*2 ∧
        items response ≠ ∅ ∧
        map_Forall (λ _ item, quantity item ≤ CheckoutService.available_stock)
          (items response)) ∧
     ∀ order' user' validate_pricing',
       CheckoutService.start_checkout order' cart user' validate_pricing' run.1
       = (run.1, Failed ValidationError)).
Proof.
  intros key run. subst run. rewrite start_checkout_run. fold key.
  split; [|split].
  - intros Hnone. rewrite get_cart_unfold. fold key. by rewrite Hnone.
  - intros e.
    destruct (CartService.get_cart cart st).2 as [response|e']; [|by destruct e'].
    destruct (size (items response) =? 0)%nat; [done|].
    by destruct (filter _ (map_to_list (items response))).
  - intros r.
    destruct (CartService.get_cart cart st).2 as [response|e']; [|by destruct e'].
    destruct (Nat.eqb_spec (size (items response)) 0) as [|Hsize]; [done|].
    destruct (filter _ (map_to_list (items response))) as [|issue issues] eqn:Hstock;
      [|done].
    cbn [fst snd]. intros [= <-]. cbn.
    split; [done|]. split; [done|]. split; [done|]. split.
    + exists response. split; [done|]. split; [done|]. split; [done|]. split.
      * intros Hempty. apply Hsize. by rewrite Hempty, map_size_empty.
      * intros k item Hk. apply Z.nlt_ge. intros Hlt.
        assert (Hin : (k, item) ∈ filter (λ kv, CheckoutService.available_stock
                                                < quantity kv.2)
                        (map_to_list (items response))).
        { apply list_elem_of_filter. split; [done|]. by apply elem_of_map_to_list. }
        rewrite Hstock in Hin. by apply elem_of_nil in Hin.
    + intros order' user' validate_pricing'. rewrite start_checkout_run.
      rewrite get_cart_unfold. fold key. by rewrite lookup_delete_eq.
Qed.

(** ** The further properties at concrete carts *)

Lemma positive_quantities_cart_AB : positive_quantities cart_AB.
Proof.
  unfold cart_AB.
  do 2 (apply positive_quantities_HSET;
    [|intros q Hq; vm_compute in Hq; injection Hq as <-; lia]).
  apply positive_quantities_empty.
Qed.

Lemma readable_cart_AB other raw :
  HGET cart_AB (CartService._get_cart_key "c") other = Some raw →
  entry_readable other raw = true.
Proof.
  assert (H : readable_cart cart_AB (CartService._get_cart_key "c"))
    by (apply (bool_decide_unpack _); vm_compute; exact I).
  intros Hget. exact (H other raw Hget).
Qed.

Lemma retry_stops_at_first_settled_call_witness :
  let func : nat → RedisClient.attempt (A:=string) (cause:=string) :=
    λ n, match n with
         | O => RedisClient.RaisesTransient "connection reset"
         | _ => RedisClient.Returns "PONG"
         end in
  let draw : nat → Q := λ _, 1 # 2 in
  let run := RedisClient._retry_with_backoff func draw RedisClient.default_max_retries
               RedisClient.default_initial_backoff RedisClient.default_max_backoff in
  calls run.1 = [0; 1]%nat ∧ run.2 = RedisClient.Value "PONG".
Proof.
  intros func draw run.
  destruct (retry_stops_at_first_settled_call func draw
              RedisClient.default_max_retries RedisClient.default_initial_backoff
              RedisClient.default_max_backoff 1) as (Hcalls & Hvalue & _).
  - unfold RedisClient.default_max_retries. lia.
  - intros n Hn. assert (n = 0%nat) as -> by lia. by eexists.
  - intros e. discriminate.
  - split; [exact Hcalls|]. by apply Hvalue.
Defined.

Lemma retry_delays_bounded_witness :
  let func : nat → RedisClient.attempt (A:=unit) (cause:=string) :=
    λ _, RedisClient.RaisesTransient "timed out" in
  let draw : nat → Q := λ _, 1%Q in
  (∀ n, 0 <= draw n ∧ draw n <= 1)%Q ∧
  Forall (λ d, 0 <= d ∧ d <= (11 # 10) * Qmax 2 2)%Q
    (sleeps (RedisClient._retry_with_backoff func draw 3 2%Q 2%Q).1).
Proof.
  intros func draw.
  assert (Hdraw : ∀ n, (0 <= draw n ∧ draw n <= 1)%Q).
  { intros n. unfold draw. split; discriminate. }
  split; [exact Hdraw|].
  apply (retry_delays_bounded func draw 3 2%Q 2%Q Hdraw); discriminate.
Defined.

Lemma mutations_leave_other_carts_witness :
  "s" ≠ "t" ∧
  (CartService.get_cart "t"
     (CartService.add_item default_config "s" "C" 1 "3" None false carts_to_merge).1).2
  = (CartService.get_cart "t" carts_to_merge).2.
Proof.
  assert (Hne : "s" ≠ "t") by discriminate.
  split; [exact Hne|].
  exact (proj1 (mutations_leave_other_carts default_config carts_to_merge "t")
           "s" "C" 1 "3" None false Hne).
Defined.

Lemma remove_item_effect_witness :
  is_Some (HGET cart_AB (CartService._get_cart_key "c") "B") ∧
  (let run := CartService.remove_item default_config "c" "B" true cart_AB in
   run.2 = Done true ∧
   HGET run.1 (CartService._get_cart_key "c") "B" = None ∧
   TTL run.1 (CartService._get_cart_key "c") = Some 86400).
Proof.
  assert (HB : is_Some (HGET cart_AB (CartService._get_cart_key "c") "B"))
    by (by eexists).
  split; [exact HB|].
  destruct (proj2 (remove_item_effect default_config cart_AB "c" "B" true) HB)
    as (Hdone & Hgone & _ & _ & _ & Hmore).
  cbv zeta. split; [exact Hdone|]. split; [exact Hgone|].
  apply Hmore. exists "A". split; [discriminate|by eexists].
Defined.






Lemma no_empty_hash_carts_to_merge : no_empty_hash carts_to_merge.
Proof. do 3 apply no_empty_hash_HSET. apply no_empty_hash_empty. Qed.

Lemma merge_carts_source_fate_witness :
  let run := CartService.merge_carts default_config "s" "t" "sum" true carts_to_merge in
  no_empty_hash carts_to_merge ∧
  run.1 !! CartService._get_cart_key "s" = None ∧
  CartService.merge_carts default_config "s" "t" "sum" true run.1
  = (run.1, Done (RDict [("ok", JBool true); ("merged", JInt 0); ("conflicts", JInt 0);
                         ("message", JStr "Source cart is empty")])).
Proof.
  intros run. split; [exact no_empty_hash_carts_to_merge|].
  destruct (proj2 (merge_carts_source_fate default_config carts_to_merge "s" "t" "sum"
                     true (or_introl eq_refl) no_empty_hash_carts_to_merge)
              (RDict [("ok", JBool true); ("merged", JInt 2); ("conflicts", JInt 1);
                      ("resolution", JStr "sum")]))
    as (Hgone & Hagain & _).
  - reflexivity.
  - split; [exact Hgone|]. apply Hagain.
Defined.


Lemma mutations_keep_quantities_positive_witness :
  positive_quantities cart_AB ∧
  positive_quantities
    (CartService.update_quantity default_config "c" "A" 1 false cart_AB).1 ∧
  positive_quantities
    (CartService.merge_carts default_config "c" "d" "sum" false cart_AB).1.
Proof.
  split; [exact positive_quantities_cart_AB|].
  destruct (mutations_keep_quantities_positive default_config cart_AB
              positive_quantities_cart_AB) as (_ & Hupdate & _ & _ & Hmerge).
  split; [apply Hupdate | apply Hmerge].
Defined.



Lemma add_item_twice_witness :
  let first := CartService.add_item default_config "c" "A" 2 "10" None false ∅ in
  let second := CartService.add_item default_config "c" "A" 3 "12" None false first.1 in
  positive_quantities ∅ ∧
  second.2 = Done [("ok", JBool true); ("quantity", JInt 5); ("is_new", JBool false)] ∧
  second.1 = (CartService.add_item default_config "c" "A" 5 "12" None false ∅).1.
Proof.
  intros first second. split; [exact positive_quantities_empty|].
  destruct (add_item_twice default_config ∅ "c" "A" 2 3 "10" "12" None None false
              [("ok", JBool true); ("quantity", JInt 2); ("is_new", JBool true)]
              [("ok", JBool true); ("quantity", JInt 5); ("is_new", JBool false)]
              positive_quantities_empty eq_refl eq_refl)
    as (existing & Hex & Hanswer & Hstate).
  injection Hex as <-. split; [exact Hanswer|exact Hstate].
Defined.

Lemma start_checkout_effect_witness :
  let run := CheckoutService.start_checkout "order-1" "c" None true cart_AB in
  ∃ r, run.2 = Done r ∧
       run.1 = delete (CartService._get_cart_key "c") cart_AB ∧
       CheckoutService.total r = mk_Decimal 25 0 ∧
       CheckoutService.start_checkout "order-2" "c" None true run.1
       = (run.1, Failed ValidationError).
Proof.
  intros run.
  destruct run.2 as [r|e] eqn:E; [|vm_compute in E; discriminate].
  exists r. split; [reflexivity|].
  destruct (proj2 (proj2 (start_checkout_effect "order-1" "c" None true cart_AB)) r E)
    as (Hstate & _ & _ & (response & Hget & Htotal & _) & Hagain).
  split; [exact Hstate|]. split; [|apply Hagain].
  rewrite Htotal. vm_compute in Hget. injection Hget as <-. reflexivity.
Defined.
